(** * Proximity ranking of the delivery-tracking home screen

    Shallow embedding of the ranking logic of [src/app/(tabs)/index.tsx]
    ([filteredCustomers], [customersWithDistance], [sortedCustomers],
    [getNearestCustomerInfo]) and of the flash-message relay of
    [src/services/flash.ts].

    JavaScript numbers used as coordinates are modelled as rationals [Q]
    (no NaN); JavaScript strings as Latin-1 strings ([string] of [ascii]).
    The haversine distance [calculateDistance] is floating-point code; the
    ranking is embedded over it as a parameter, a function returning what
    [Math.round] produces: an integral number, or NaN ([jsint]). The
    floating-point code itself is embedded over IEEE doubles in the module
    [Haversine]. *)

From Stdlib Require Import List ZArith QArith String Ascii Bool Lia.
From Stdlib Require Import Sorting.Permutation QArith.Qround QArith.Qabs.
From Stdlib Require Floats.
Import ListNotations.

Open Scope string_scope.

(** ** Strings: [toLowerCase], [trim], [includes] *)

Module JsString.
Local Open Scope nat_scope.

(** [String.prototype.toLowerCase] on Latin-1 code units:
    65..90 ('A'..'Z') and 192..222 except 215 (the accented capitals)
    move up by 32. *)
Definition lower_char (a : ascii) : ascii :=
  let n := nat_of_ascii a in
  if ((65 <=? n) && (n <=? 90)) || ((192 <=? n) && (n <=? 222) && negb (n =? 215))
  then ascii_of_nat (n + 32) else a.

Fixpoint toLowerCase (s : string) : string :=
  match s with
  | EmptyString => EmptyString
  | String a s' => String (lower_char a) (toLowerCase s')
  end.

(** White space and line terminators of ECMAScript within Latin-1:
    TAB, LF, VT, FF, CR, SPACE and NBSP. *)
Definition is_space (a : ascii) : bool :=
  let n := nat_of_ascii a in
  ((9 <=? n) && (n <=? 13)) || (n =? 32) || (n =? 160).

Fixpoint trim_start (s : string) : string :=
  match s with
  | EmptyString => EmptyString
  | String a s' => if is_space a then trim_start s' else s
  end.

Fixpoint rev_string (s : string) : string :=
  match s with
  | EmptyString => EmptyString
  | String a s' => rev_string s' ++ String a EmptyString
  end.

Definition trim_end (s : string) : string :=
  rev_string (trim_start (rev_string s)).

(** [String.prototype.trim]. *)
Definition trim (s : string) : string := trim_end (trim_start s).

(** [s.includes(q)]: [q] occurs in [s] at some position. *)
Fixpoint includes (s q : string) : bool :=
  prefix q s ||
  match s with
  | EmptyString => false
  | String _ s' => includes s' q
  end.

End JsString.

Import JsString.

(** ** Data model *)

(** [type Customer] of [index.tsx]; [number | null] is [option Q],
    an optional property [?: string] is [option string]. *)
Record Customer := mkCustomer {
  _id : string;
  name : string;
  address : string;
  latitude : option Q;
  longitude : option Q;
  orderDetails : option string;
  deliveryPerson : option string;
  status : string;
  deliveryDate : string;
  createdAt : string;
  updatedAt : string
}.

(** The state [currentLocation] when it is not [null]. *)
Record Location := mkLocation {
  loc_latitude : Q;
  loc_longitude : Q
}.

(** A number returned by [calculateDistance]: [Math.round] of
    [R * c], an integral number, or NaN when the haversine term [a]
    exceeds 1 and [Math.sqrt(1 - a)] is NaN. It is never infinite
    ([c] is at most 2 pi). *)
Inductive jsint :=
| JsInt (z : Z)
| JsNaN.

(** [{ ...c, distance }] built by [customersWithDistance]: the customer
    with a [distance] that is [null] ([None]) or a number. *)
Record Ranked := mkRanked {
  entry : Customer;
  distance : option jsint
}.

(** [{ ...customer, distance }] built by [getNearestCustomerInfo]. *)
Record Nearest := mkNearest {
  near : Customer;
  near_distance : Z
}.

(** JavaScript truthiness of a number: [0] is falsy. *)
Definition truthy (x : Q) : bool := negb (Qeq_bool x 0).

(** [c.latitude && c.longitude], giving the pair when both are truthy. *)
Definition coords (c : Customer) : option (Q * Q) :=
  match latitude c, longitude c with
  | Some la, Some lo => if truthy la && truthy lo then Some (la, lo) else None
  | _, _ => None
  end.

(** [(c.status || "").toLowerCase() === "delivered"]; also the test
    [customer.status && customer.status.toLowerCase() === "delivered"]
    of [getNearestCustomerInfo], which agrees with it ("" is falsy and is
    not "delivered"). *)
Definition isDelivered (c : Customer) : bool :=
  String.eqb (toLowerCase (status c)) "delivered".

(** ** Stable sort of [Array.prototype.sort]

    [Array.prototype.sort] is stable; for a consistent comparator its
    result is the unique stable ordering, computed here by insertion:
    an element goes before the first element it does not compare greater
    than, so an earlier input element stays before the equal ones. *)

Section Sort.
Context {A : Type} (cmp : A -> A -> Z).

Fixpoint insert (x : A) (l : list A) : list A :=
  match l with
  | [] => [x]
  | y :: l' => if (0 <? cmp x y)%Z then y :: insert x l' else x :: y :: l'
  end.

Fixpoint isort (l : list A) : list A :=
  match l with
  | [] => []
  | x :: l' => insert x (isort l')
  end.

(** [x] is not sorted after [y]. *)
Definition cle (x y : A) : Prop := (cmp x y <= 0)%Z.
End Sort.

(** SortCompare of [Array.prototype.sort]: the comparator's number,
    NaN read as [+0]. *)
Definition sortCompare {A : Type} (comparefn : A -> A -> jsint) (x y : A) : Z :=
  match comparefn x y with
  | JsInt v => v
  | JsNaN => 0
  end.

(** ** The ranking of the home screen *)

Section Ranker.
(** [calculateDistance(lat1, lon1, lat2, lon2)]: [Math.round] of the
    haversine distance in metres. *)
Variable calculateDistance : Q -> Q -> Q -> Q -> jsint.
(** The state [currentLocation]. *)
Variable currentLocation : option Location.

(** The predicate passed to [customers.filter] in [filteredCustomers]. *)
Definition matchesQuery (q : string) (c : Customer) : bool :=
  includes (toLowerCase (name c)) q ||
  includes (toLowerCase (address c)) q ||
  match deliveryPerson c with
  | Some d => includes (toLowerCase d) q
  | None => false
  end ||
  match orderDetails c with
  | Some o => includes (toLowerCase o) q
  | None => false
  end.

Definition keepCustomer (searchQuery : string) (c : Customer) : bool :=
  if isDelivered c then false
  else
    let q := toLowerCase (trim searchQuery) in
    if String.eqb q "" then true else matchesQuery q c.

Definition filteredCustomers (customers : list Customer) (searchQuery : string)
  : list Customer :=
  filter (keepCustomer searchQuery) customers.

(** The callback of [filteredCustomers.map]. *)
Definition withDistance (c : Customer) : Ranked :=
  match currentLocation, coords c with
  | Some l, Some (la, lo) =>
      mkRanked c (Some (calculateDistance (loc_latitude l) (loc_longitude l) la lo))
  | _, _ => mkRanked c None
  end.

Definition customersWithDistance (customers : list Customer) (searchQuery : string)
  : list Ranked :=
  map withDistance (filteredCustomers customers searchQuery).

(** The comparator of [sortedCustomers]; [a.distance - b.distance] is
    NaN when either distance is. *)
Definition compareRanked (a b : Ranked) : jsint :=
  match distance a, distance b with
  | None, None => JsInt 0
  | None, Some _ => JsInt 1
  | Some _, None => JsInt (-1)
  | Some x, Some y =>
      match x, y with
      | JsInt u, JsInt v => JsInt (u - v)
      | _, _ => JsNaN
      end
  end.

(** [sortedCustomers]: the spec's [filterAndRank]. With a NaN distance
    the comparator is inconsistent and the order is left to the engine;
    the model takes the insertion order, which is also what V8 gives on
    short arrays. *)
Definition sortedCustomers (customers : list Customer) (searchQuery : string)
  : list Ranked :=
  isort (sortCompare compareRanked) (customersWithDistance customers searchQuery).

(** The body of [customers.forEach] in [getNearestCustomerInfo]; the
    state is [(nearest, minDistance)], [None] standing for [Infinity].
    [distance < minDistance] is false when [distance] is NaN. *)
Definition nearestStep (l : Location) (st : option Nearest * option Z)
    (customer : Customer) : option Nearest * option Z :=
  match coords customer with
  | None => st
  | Some (la, lo) =>
      if isDelivered customer then st
      else
        match calculateDistance (loc_latitude l) (loc_longitude l) la lo with
        | JsNaN => st
        | JsInt d =>
            let less := match snd st with None => true | Some m => (d <? m)%Z end in
            if less then (Some (mkNearest customer d), Some d) else st
        end
  end.

(** [getNearestCustomerInfo]: the spec's [findNearestEligible]. *)
Definition getNearestCustomerInfo (customers : list Customer) : option Nearest :=
  match currentLocation with
  | None => None
  | Some l => fst (fold_left (nearestStep l) customers (None, None))
  end.
End Ranker.

(** ** The JavaScript heap seen by the ranking

    The ranking code runs over objects shared with the rest of the
    screen: the array [customers] and its customer objects. [filter] and
    [map] allocate new arrays, the spread [{ ...c, distance }] allocates
    new objects, and [sort] reorders its receiver in place. The heap is a
    map from locations to objects with an allocation pointer. *)

Module Heap.
Local Open Scope nat_scope.

Definition loc := nat.

Inductive Obj :=
| OArray (elems : list loc)
| OCustomer (c : Customer)
| ORanked (r : Ranked)
| ONearest (n : Nearest).

Record heap := mkHeap {
  mem : loc -> option Obj;
  next : loc
}.

(** Every allocated location lies below the allocation pointer. *)
Definition heap_ok (h : heap) : Prop :=
  forall l, next h <= l -> mem h l = None.

Definition upd (m : loc -> option Obj) (l : loc) (o : Obj) : loc -> option Obj :=
  fun l' => if Nat.eqb l' l then Some o else m l'.

(** State and failure monad; failure is a [TypeError] of an ill-typed
    heap, which the TypeScript types rule out. *)
Definition M (A : Type) := heap -> option (A * heap).

Definition ret {A} (x : A) : M A := fun h => Some (x, h).

Definition bind {A B} (m : M A) (k : A -> M B) : M B :=
  fun h => match m h with
           | Some (x, h') => k x h'
           | None => None
           end.

Notation "x <- m ;; k" := (bind m (fun x => k))
  (at level 61, m at next level, right associativity).

Definition alloc (o : Obj) : M loc :=
  fun h => Some (next h, mkHeap (upd (mem h) (next h) o) (S (next h))).

Definition write (l : loc) (o : Obj) : M unit :=
  fun h => match mem h l with
           | Some _ => Some (tt, mkHeap (upd (mem h) l o) (next h))
           | None => None
           end.

Definition read_array (h : heap) (l : loc) : option (list loc) :=
  match mem h l with Some (OArray ls) => Some ls | _ => None end.
Definition read_customer (h : heap) (l : loc) : option Customer :=
  match mem h l with Some (OCustomer c) => Some c | _ => None end.
Definition read_ranked (h : heap) (l : loc) : option Ranked :=
  match mem h l with Some (ORanked r) => Some r | _ => None end.
Definition read_nearest (h : heap) (l : loc) : option Nearest :=
  match mem h l with Some (ONearest n) => Some n | _ => None end.

Definition lift {A} (f : heap -> loc -> option A) (l : loc) : M A :=
  fun h => match f h l with Some x => Some (x, h) | None => None end.

Definition getArray := lift read_array.
Definition getCustomer := lift read_customer.
Definition getRanked := lift read_ranked.

Fixpoint mapM {A B} (f : A -> M B) (l : list A) : M (list B) :=
  match l with
  | [] => ret []
  | x :: l' => y <- f x ;; ys <- mapM f l' ;; ret (y :: ys)
  end.

Fixpoint filterM {A} (f : A -> M bool) (l : list A) : M (list A) :=
  match l with
  | [] => ret []
  | x :: l' => b <- f x ;; ys <- filterM f l' ;; ret (if b then x :: ys else ys)
  end.

Fixpoint foldM {A B} (f : B -> A -> M B) (acc : B) (l : list A) : M B :=
  match l with
  | [] => ret acc
  | x :: l' => acc' <- f acc x ;; foldM f acc' l'
  end.

(** The customers an array location holds. *)
Fixpoint traverse {A} (f : loc -> option A) (ls : list loc) : option (list A) :=
  match ls with
  | [] => Some []
  | l :: ls' =>
      match f l, traverse f ls' with
      | Some x, Some xs => Some (x :: xs)
      | _, _ => None
      end
  end.

Definition array_of {A} (rd : heap -> loc -> option A) (h : heap) (arr : loc)
  : option (list A) :=
  match read_array h arr with
  | Some ls => traverse (rd h) ls
  | None => None
  end.

Section Screen.
Variable calculateDistance : Q -> Q -> Q -> Q -> jsint.
Variable currentLocation : option Location.

(** [customers.filter((c) => ...)]: a new array of the same objects. *)
Definition filterCustomers (searchQuery : string) (customers : loc) : M loc :=
  ls <- getArray customers ;;
  kept <- filterM (fun l => c <- getCustomer l ;;
                            ret (keepCustomer searchQuery c)) ls ;;
  alloc (OArray kept).

(** [filteredCustomers.map((c) => ({ ...c, distance }))]. *)
Definition mapWithDistance (arr : loc) : M loc :=
  ls <- getArray arr ;;
  rs <- mapM (fun l => c <- getCustomer l ;;
                       alloc (ORanked (withDistance calculateDistance currentLocation c))) ls ;;
  alloc (OArray rs).

(** [arr.sort(compare)]: reorders the receiver and returns it. *)
Definition sortInPlace (arr : loc) : M loc :=
  ls <- getArray arr ;;
  ps <- mapM (fun l => r <- getRanked l ;; ret (l, r)) ls ;;
  _ <- write arr (OArray (map fst (isort (fun a b => sortCompare compareRanked (snd a) (snd b)) ps))) ;;
  ret arr.

Definition sortedCustomersM (searchQuery : string) (customers : loc) : M loc :=
  f <- filterCustomers searchQuery customers ;;
  m <- mapWithDistance f ;;
  sortInPlace m.

(** The [forEach] body of [getNearestCustomerInfo]; [nearest] is a
    location, [minDistance] is [None] for [Infinity]. *)
Definition nearestStepM (l : Location) (st : option loc * option Z) (cl : loc)
  : M (option loc * option Z) :=
  customer <- getCustomer cl ;;
  match coords customer with
  | None => ret st
  | Some (la, lo) =>
      if isDelivered customer then ret st
      else
        match calculateDistance (loc_latitude l) (loc_longitude l) la lo with
        | JsNaN => ret st
        | JsInt d =>
            let less := match snd st with None => true | Some m => (d <? m)%Z end in
            if less then (n <- alloc (ONearest (mkNearest customer d)) ;; ret (Some n, Some d))
            else ret st
        end
  end.

Definition getNearestCustomerInfoM (customers : loc) : M (option loc) :=
  match currentLocation with
  | None => ret None
  | Some l =>
      ls <- getArray customers ;;
      st <- foldM (nearestStepM l) (None, None) ls ;;
      ret (fst st)
  end.
End Screen.

(** [h'] only adds objects to [h]: the objects of [h] are unchanged. *)
Definition Extends (h h' : heap) : Prop :=
  next h <= next h' /\ forall l, l < next h -> mem h' l = mem h l.

(** The heap state of the [forEach] loop of [getNearestCustomerInfo]
    against the pure one: same [minDistance]; [nearest] a fresh
    object holding the pure [nearest]. *)
Definition NearRel (h0 h : heap) (sM : option loc * option Z)
    (sP : option Nearest * option Z) : Prop :=
  snd sM = snd sP /\
  match fst sM, fst sP with
  | None, None => True
  | Some x, Some n => next h0 <= x /\ read_nearest h x = Some n
  | _, _ => False
  end.

End Heap.

(** ** The flash-message relay of [src/services/flash.ts]

    The module-level slot [_flashMessage : string | null]. *)

Module Flash.

Definition slot := option string.

(** [setFlash(message)]. *)
Definition setFlash (message : string) (s : slot) : slot := Some message.

(** [consumeFlash()]: returns the slot and empties it. *)
Definition consumeFlash (s : slot) : option string * slot := (s, None).

Inductive op := SetFlash (message : string) | ConsumeFlash.

(** A sequence of calls from the initial [null] slot; the results of the
    [consumeFlash] calls, in order. *)
Fixpoint run (s : slot) (ops : list op) : list (option string) :=
  match ops with
  | [] => []
  | SetFlash m :: ops' => run (setFlash m s) ops'
  | ConsumeFlash :: ops' =>
      let (r, s') := consumeFlash s in r :: run s' ops'
  end.

(** The same run with each stored message tagged by the position of the
    [setFlash] call that stored it. *)
Fixpoint run_tagged (i : nat) (s : option (nat * string)) (ops : list op)
  : list (option (nat * string)) :=
  match ops with
  | [] => []
  | SetFlash m :: ops' => run_tagged (S i) (Some (i, m)) ops'
  | ConsumeFlash :: ops' => s :: run_tagged (S i) None ops'
  end.

(** The [setFlash] calls whose messages a tagged run returns. *)
Definition returned_tags (t : list (option (nat * string))) : list nat :=
  flat_map (fun o => match o with Some (i, _) => [i] | None => [] end) t.


End Flash.

(** Entries with the same [distance] (both [null], or the same number). *)
Definition hasDistance (k : option Z) (r : Ranked) : bool :=
  match distance r, k with
  | None, None => true
  | Some (JsInt x), Some y => Z.eqb x y
  | _, _ => false
  end.

(** [customer] passes both skip tests of [getNearestCustomerInfo]; its
    distance from [l]. *)
Definition eligibleDistance (calculateDistance : Q -> Q -> Q -> Q -> jsint) (l : Location)
    (customer : Customer) : option jsint :=
  match coords customer with
  | None => None
  | Some (la, lo) =>
      if isDelivered customer then None
      else Some (calculateDistance (loc_latitude l) (loc_longitude l) la lo)
  end.

(** [field.toLowerCase().includes(query.toLowerCase())]: [field] contains
    [query] as a case-insensitive substring. *)
Definition containsCI (field query : string) : bool :=
  includes (toLowerCase field) (toLowerCase query).

(** ** Example data of the spec (section 8) *)

Definition exampleCustomer (id : string) (lat lon : Q) (st : string) : Customer :=
  mkCustomer id id "street" (Some lat) (Some lon) None None st
             "2025-01-01" "2025-01-01" "2025-01-01".

Definition deviceAtOrigin : Location := mkLocation 0 0.
Definition customerA : Customer := exampleCustomer "A" 0 0 "pending".
Definition customerB : Customer := exampleCustomer "B" 0 1 "pending".
Definition customerC : Customer := exampleCustomer "C" 0 (1 # 2) "delivered".

(** Two pending customers at the same place on the equator. *)
Definition customerX : Customer := exampleCustomer "X" 0 2 "pending".
Definition customerY : Customer := exampleCustomer "Y" 0 2 "pending".

(** A heap with the array [[customerA; customerB]] at location 0. *)
Definition sampleHeap : Heap.heap :=
  Heap.mkHeap (fun l => match l with
                        | 0%nat => Some (Heap.OArray [1%nat; 2%nat])
                        | 1%nat => Some (Heap.OCustomer customerA)
                        | 2%nat => Some (Heap.OCustomer customerB)
                        | _ => None
                        end) 3%nat.

(** A distance function for the concrete runs: the Manhattan distance in
    degrees, rounded down. *)
Definition sampleDistance (lat1 lon1 lat2 lon2 : Q) : jsint :=
  JsInt (Qfloor (Qabs (lat2 - lat1) + Qabs (lon2 - lon1))).

(** A device at (0.08, 71.08), and a distance function that is NaN from
    it to (-0.08, -108.92), as the haversine code in IEEE doubles is for
    these two points (module [HaversineFacts]), and [sampleDistance]
    elsewhere. *)
Definition deviceNearAntipode : Location := mkLocation (8 # 100) (7108 # 100).

Definition antipodalDistance (lat1 lon1 lat2 lon2 : Q) : jsint :=
  if Qeq_bool lat1 (8 # 100) && Qeq_bool lon1 (7108 # 100) &&
     Qeq_bool lat2 (-8 # 100) && Qeq_bool lon2 (-10892 # 100)
  then JsNaN else sampleDistance lat1 lon1 lat2 lon2.

(** Three pending customers at distances 5, NaN and 3 from
    [deviceNearAntipode] under [antipodalDistance]. *)
Definition customerP : Customer := exampleCustomer "P" (108 # 100) (7508 # 100) "pending".
Definition customerN : Customer := exampleCustomer "N" (-8 # 100) (-10892 # 100) "pending".
Definition customerQ : Customer := exampleCustomer "Q" (108 # 100) (7308 # 100) "pending".

(** ** Numbers as text *)

Module JsNumber.
Local Open Scope nat_scope.

Definition digit (d : Z) : ascii := ascii_of_nat (48 + Z.to_nat d).

(** The decimal digits of the positive integer [n] in front of [acc];
    [fuel] bounds the number of digits. *)
Fixpoint pos_digits (fuel : nat) (n : Z) (acc : string) : string :=
  match fuel with
  | O => acc
  | S f =>
      let acc' := String (digit (n mod 10)%Z) acc in
      if (n <? 10)%Z then acc' else pos_digits f (n / 10)%Z acc'
  end.

(** [`${n}`] for an integral [Number] below [10^21], such as
    [res.status]. *)
Definition Z_to_string (z : Z) : string :=
  match z with
  | Z0 => "0"
  | Zpos p => pos_digits (Pos.size_nat p) z ""
  | Zneg p => "-" ++ pos_digits (Pos.size_nat p) (Zpos p) ""
  end.

Fixpoint zeros (k : nat) : string :=
  match k with
  | O => ""
  | S k' => String "0" (zeros k')
  end.

Section ToFixed.
(** [Number::toString] ([`${x}`]), used by [toFixed] from [10^21] on. *)
Variable numberToString : Q -> string.

(** [x.toFixed(f)] (ECMA-262, Number.prototype.toFixed) on a finite
    number: the sign, then [n] with [f] decimals, [n] the integer nearest
    to [x * 10^f], the larger one on a tie. *)
Definition toFixed (f : nat) (x : Q) : string :=
  let s := if Qle_bool 0 x then "" else "-" in
  let x := if Qle_bool 0 x then x else (- x)%Q in
  let m :=
    if Qle_bool (inject_Z (10 ^ 21)) x then numberToString x
    else
      let n := Qfloor (x * inject_Z (10 ^ Z.of_nat f) + (1 # 2))%Q in
      let m := Z_to_string n in
      if f =? 0 then m
      else
        let k := String.length m in
        let '(m, k) := if k <=? f then (zeros (f + 1 - k) ++ m, f + 1) else (m, k) in
        substring 0 (k - f) m ++ "." ++ substring (k - f) f m
  in s ++ m.
End ToFixed.

(** [encodeURIComponent] on Latin-1 text: the unreserved characters
    stay, every other one is replaced by the percent-escapes of its UTF-8
    bytes (two bytes from code 128 on). *)
Definition hex_digit (n : nat) : ascii :=
  if n <? 10 then ascii_of_nat (48 + n) else ascii_of_nat (55 + n).

Definition percent (b : nat) : string :=
  String "%" (String (hex_digit (b / 16)) (String (hex_digit (b mod 16)) "")).

Definition uri_unreserved (a : ascii) : bool :=
  let n := nat_of_ascii a in
  ((48 <=? n) && (n <=? 57)) || ((65 <=? n) && (n <=? 90)) ||
  ((97 <=? n) && (n <=? 122)) ||
  existsb (Nat.eqb n) [45; 95; 46; 33; 126; 42; 39; 40; 41].

Fixpoint encodeURIComponent (s : string) : string :=
  match s with
  | EmptyString => EmptyString
  | String a s' =>
      let n := nat_of_ascii a in
      (if uri_unreserved a then String a EmptyString
       else if n <? 128 then percent n
       else percent (192 + n / 64) ++ percent (128 + n mod 64))
      ++ encodeURIComponent s'
  end.

End JsNumber.

Import JsNumber.

(** ** JSON values *)

Module Json.

Local Set Warnings "-register-all".

(** A value produced by [JSON.parse] or [res.json()]. *)
Inductive json :=
| JNull
| JBool (b : bool)
| JNum (q : Q)
| JStr (s : string)
| JArr (xs : list json)
| JObj (fields : list (string * json)).

(** What [JSON.parse(text)] does: a value, or a [SyntaxError] with its
    message. *)
Inductive parsed :=
| ParseOk (v : json)
| ParseError (message : string).

Definition truthy_json (v : json) : bool :=
  match v with
  | JNull => false
  | JBool b => b
  | JNum q => truthy q
  | JStr s => negb (String.eqb s "")
  | JArr _ | JObj _ => true
  end.

(** The own property [k] of a parsed object; of duplicate keys
    [JSON.parse] keeps the last one. *)
Fixpoint field (k : string) (fs : list (string * json)) : option json :=
  match fs with
  | [] => None
  | (k', v) :: fs' =>
      match field k fs' with
      | Some w => Some w
      | None => if String.eqb k k' then Some v else None
      end
  end.

(** The property read [v.k] for the keys [success], [customers] and
    [error], which no prototype provides: [None] when the read throws a
    [TypeError] ([v] is [null]), [Some None] for [undefined]. *)
Definition get (v : json) (k : string) : option (option json) :=
  match v with
  | JNull => None
  | JObj fs => Some (field k fs)
  | _ => Some None
  end.

(** Truthiness of a property read that did not throw. *)
Definition truthy_prop (o : option json) : bool :=
  match o with
  | Some v => truthy_json v
  | None => false
  end.

End Json.

Import Json.

(** ** The API client of [src/unnamed/part_000]

    Each function sends one request and handles the reply; the model
    takes the reply of [fetch] as its input. *)

Module Api.

Definition API_BASE_URL : string := "http://172.17.76.174:8000/api".

(** A response: [res.ok], [res.status] and the body [res.text()]. *)
Record Response := mkResponse {
  ok : bool;
  status : Z;
  text : string
}.

(** What [await fetch(url, ...)] gives: a rejection (the network
    failure, by the message of its error) or a response. *)
Inductive fetched :=
| Rejected (message : string)
| Resolved (res : Response).

(** How an [async] function of the client settles: it returns a value,
    or throws an error, given by its message. *)
Inductive outcome (A : Type) :=
| Returned (v : A)
| Thrown (message : string).
Arguments Returned {A} v.
Arguments Thrown {A} message.

Section Requests.
(** [JSON.parse], as used by [res.json()]. *)
Variable JSON_parse : string -> parsed.

(** The body shared by the five functions: a rejected [fetch] is
    rethrown by the [catch]; a response that is not [ok] throws
    [new Error(text || `Failed to <what>: ${res.status}`)]; otherwise the
    parsed body is returned, a body that does not parse throwing its
    [SyntaxError]. *)
Definition request (what : string) (reply : fetched) : outcome json :=
  match reply with
  | Rejected m => Thrown m
  | Resolved res =>
      if negb (ok res) then
        Thrown (if String.eqb (text res) ""
                then "Failed to " ++ what ++ ": " ++ Z_to_string (status res)
                else text res)
      else
        match JSON_parse (text res) with
        | ParseOk v => Returned v
        | ParseError m => Thrown m
        end
  end.

Definition createCustomer : fetched -> outcome json := request "create customer".
Definition getCustomers : fetched -> outcome json := request "fetch customers".
Definition getTodayOrders : fetched -> outcome json := request "fetch today's orders".
Definition getCustomer : fetched -> outcome json := request "fetch customer".
Definition updateCustomerStatus : fetched -> outcome json := request "update customer".
End Requests.

End Api.

(** ** The rest of the home screen [src/app/(tabs)/index.tsx] *)

Module Home.

Section HomeScreen.
Variable JSON_parse : string -> parsed.
(** The objects of the array [response.customers] taken as [Customer]
    values: the TypeScript cast of [setCustomers(response.customers)]. *)
Variable asCustomers : list json -> list Customer.
(** The message of the [TypeError] thrown by reading a property of
    [null]. *)
Variable nullReadMessage : string.
(** [Number::toString] ([`${x}`]). *)
Variable numberToString : Q -> string.

(** The states [customers], [error], [loading] and [refreshing]. *)
Record State := mkState {
  customers : list Customer;
  error : option string;
  loading : bool;
  refreshing : bool
}.

(** [Alert.alert(title, message)]. *)
Definition alert : Type := (string * string)%type.

(** [loadCustomers], given the reply to its [getCustomers()] request:
    the new state and the alerts shown. *)
Definition loadCustomers (st : State) (reply : Api.fetched) : State * list alert :=
  let fail (m : string) :=
    (mkState (customers st)
             (Some (if String.eqb m "" then "Failed to load customers" else m))
             false false,
     [("Error", "Failed to load customers from server")]) in
  match Api.getCustomers JSON_parse reply with
  | Api.Thrown m => fail m
  | Api.Returned response =>
      match get response "success" with
      | None => fail nullReadMessage
      | Some s =>
          if truthy_prop s then
            match get response "customers" with
            | Some (Some (JArr xs)) => (mkState (asCustomers xs) None false false, [])
            | _ => fail "Invalid response format from server"
            end
          else fail "Invalid response format from server"
      end
  end.

(** [handleMarkDelivered(id)], given the replies to the PUT request and to
    the reload that follows it. *)
Definition handleMarkDelivered (st : State) (update reload : Api.fetched)
  : State * list alert :=
  match Api.updateCustomerStatus JSON_parse update with
  | Api.Thrown m =>
      (st, [("Error", if String.eqb m "" then "Failed to update status" else m)])
  | Api.Returned _ =>
      let (st', alerts) := loadCustomers st reload in
      (st', (alerts ++ [("Success", "Order marked as delivered")])%list)
  end.

(** The flash part of the mount effect: the text of the success modal
    ([None] when it stays hidden) and the slot left behind. *)
Definition consumeFlashOnMount (s : Flash.slot) : option string * Flash.slot :=
  let (msg, s') := Flash.consumeFlash s in
  (match msg with
   | Some m => if String.eqb m "" then None else Some m
   | None => None
   end, s').

(** Truthiness of [number | null]. *)
Definition optTruthy (o : option Q) : bool :=
  match o with
  | Some x => truthy x
  | None => false
  end.

(** The callback of [customers.some] guarding the nearest-customer card. *)
Definition cardCandidate (c : Customer) : bool :=
  optTruthy (latitude c) && optTruthy (longitude c) &&
  (String.eqb (status c) "" || negb (String.eqb (toLowerCase (status c)) "delivered")).

(** [!loading && !error && customers.some(...)]. *)
Definition showNearestCard (st : State) : bool :=
  negb (loading st) &&
  match error st with None => true | Some e => String.eqb e "" end &&
  existsb cardCandidate (customers st).

(** The colour of a status label. *)
Definition statusColor (status : string) : string :=
  let s := toLowerCase status in
  if String.eqb s "delivered" then "#4CAF50"
  else if String.eqb s "cancelled" then "#f44336"
  else "#FF9800".

(** The card shows the "Mark Delivered" button. *)
Definition showMarkDelivered (c : Customer) : bool :=
  negb (String.eqb (toLowerCase (status c)) "delivered").

(** [hasCoordinates] of a list entry, as a truth value. *)
Definition hasCoordinates (c : Customer) : bool :=
  optTruthy (latitude c) && optTruthy (longitude c).

(** The text shown in place of the list when [sortedCustomers] is empty. *)
Definition listPlaceholder (sorted : list Ranked) (searchQuery : string) : option string :=
  match sorted with
  | [] => Some (if String.eqb searchQuery "" then "No customers available"
                else "No customers found matching your search")
  | _ :: _ => None
  end.

(** What a tap does. *)
Inductive effect :=
| ShowAlert (title message : string)
| ShowMaps (selected : Customer) (mapsUrl : string).

(** [openDirectionsInApp(customer)]. *)
Definition openDirectionsInApp (currentLocation : option Location) (customer : Customer)
  : effect :=
  match currentLocation with
  | None =>
      ShowAlert "Location required"
        "Current location is required to open directions. Please enable location and try again."
  | Some l =>
      let invalid := ShowAlert "Invalid Location"
                       "This customer doesn't have valid location coordinates." in
      match latitude customer, longitude customer with
      | Some la, Some lo =>
          if negb (truthy la) || negb (truthy lo) then invalid
          else
            let origin := numberToString (loc_latitude l) ++ "," ++
                          numberToString (loc_longitude l) in
            let destination := numberToString la ++ "," ++ numberToString lo in
            ShowMaps customer
              ("https://www.google.com/maps/dir/?api=1&origin=" ++
               encodeURIComponent origin ++ "&destination=" ++
               encodeURIComponent destination ++
               "&travelmode=driving&dir_action=navigate")
      | _, _ => invalid
      end
  end.

(** [formatCoordinates(location)]. *)
Definition formatCoordinates (location : option Location) : string :=
  match location with
  | None => "Unknown"
  | Some l => toFixed numberToString 6 (loc_latitude l) ++ ", " ++
              toFixed numberToString 6 (loc_longitude l)
  end.

(** An element of the result of [Location.reverseGeocodeAsync]. *)
Record GeocodedAddress := mkGeocoded {
  g_name : option string;
  street : option string;
  city : option string;
  region : option string;
  postalCode : option string;
  country : option string
}.

Inductive geocodeOutcome :=
| GeocodeFailed
| Geocoded (results : list GeocodedAddress).

(** [[...].filter(Boolean)] on [string | null] values. *)
Definition truthyStrings (l : list (option string)) : list string :=
  flat_map (fun o => match o with
                     | Some s => if String.eqb s "" then [] else [s]
                     | None => []
                     end) l.

(** [Array.prototype.join(sep)] on strings. *)
Fixpoint join (sep : string) (l : list string) : string :=
  match l with
  | [] => ""
  | [x] => x
  | x :: l' => x ++ sep ++ join sep l'
  end.

(** The value given to [setCurrentAddress] after the reverse geocoding. *)
Definition currentAddressOf (g : geocodeOutcome) : option string :=
  match g with
  | GeocodeFailed => None
  | Geocoded [] => None
  | Geocoded (a :: _) =>
      Some (join ", " (truthyStrings [g_name a; street a; city a; region a;
                                      postalCode a; country a]))
  end.

(** The states of the location part of the screen. *)
Record LocationState := mkLocationState {
  locationPermission : bool;
  currentLocation : option Location;
  currentAddress : option string;
  locationLoading : bool
}.

Definition initialLocationState : LocationState := mkLocationState false None None true.

(** How the calls of [startLocationTracking] turn out. *)
Inductive trackingOutcome :=
| PermissionDenied
| PositionFailed
| PositionFound (l : Location) (g : geocodeOutcome).

(** [startLocationTracking()]. *)
Definition startLocationTracking (st : LocationState) (o : trackingOutcome)
  : LocationState * list alert :=
  match o with
  | PermissionDenied =>
      (mkLocationState false (currentLocation st) (currentAddress st) false,
       [("Permission Denied",
         "Location permission is required for this app to work properly.")])
  | PositionFailed =>
      (mkLocationState true (currentLocation st) (currentAddress st) false, [])
  | PositionFound l g =>
      (mkLocationState true (Some l) (currentAddressOf g) false, [])
  end.

(** The "Your Location" line:
    [currentAddress ? currentAddress : formatCoordinates(currentLocation)]. *)
Definition locationLine (st : LocationState) : string :=
  match currentAddress st with
  | Some a => if String.eqb a "" then formatCoordinates (currentLocation st) else a
  | None => formatCoordinates (currentLocation st)
  end.
End HomeScreen.

End Home.

(** ** The add-customer screen [src/app/(tabs)/add-customer.tsx] *)

Module AddCustomer.

(** A JavaScript number as [parseFloat] returns it. *)
Inductive number :=
| NaN
| Infinity
| NegInfinity
| Finite (q : Q).

(** [isNaN(x)], [x < b] and [x > b] for a finite [b]. *)
Definition isNaN (x : number) : bool :=
  match x with NaN => true | _ => false end.

Definition lt (x : number) (b : Q) : bool :=
  match x with
  | NaN | Infinity => false
  | NegInfinity => true
  | Finite q => negb (Qle_bool b q)
  end.

Definition gt (x : number) (b : Q) : bool :=
  match x with
  | NaN | NegInfinity => false
  | Infinity => true
  | Finite q => negb (Qle_bool q b)
  end.

(** [type CustomerForm]. *)
Record CustomerForm := mkForm {
  name : string;
  address : string;
  latitude : string;
  longitude : string;
  orderDetails : string;
  deliveryPerson : string
}.

(** [type CustomerPayload]; an absent property is [None]. *)
Record CustomerPayload := mkPayload {
  p_name : string;
  p_address : string;
  p_latitude : option number;
  p_longitude : option number;
  p_orderDetails : option string;
  p_deliveryPerson : option string
}.

(** The state of [resetForm] and the initial state. *)
Definition emptyForm : CustomerForm := mkForm "" "" "" "" "" "".

(** How the validation of [handleSubmit] ends. *)
Inductive checked :=
| Invalid (message : string)
| Valid (payload : CustomerPayload).

(** [s.trim() || undefined]. *)
Definition orUndefined (s : string) : option string :=
  if String.eqb s "" then None else Some s.

(** What [handleSubmit] does after the request, up to its alert. *)
Inductive submitted :=
| Alerted (title : string) (message : json)
| Navigated (path : string)
| Unhandled.

Definition networkMessage : string :=
  "Network error: Cannot connect to server. Please check if the backend is running.".

Section Submit.
(** [parseFloat]. *)
Variable parseFloat : string -> number.
Variable JSON_parse : string -> parsed.

(** The coordinate check of [handleSubmit]: [None] rejects the input,
    [Some None] leaves the property out (a blank field), [Some (Some v)]
    sets it to [v]. *)
Definition readCoordinate (input : string) (bound : Q) : option (option number) :=
  if String.eqb (trim input) "" then Some None
  else
    let v := parseFloat input in
    if isNaN v || lt v (- bound) || gt v bound then None else Some (Some v).

(** Lines 61 to 106 of [handleSubmit]: the validation and the payload. *)
Definition buildPayload (formData : CustomerForm) : checked :=
  if String.eqb (trim (name formData)) "" then Invalid "Please provide customer name"
  else if String.eqb (trim (address formData)) "" then Invalid "Please provide address"
  else
    match readCoordinate (latitude formData) 90 with
    | None => Invalid "Latitude must be a valid number between -90 and 90"
    | Some lat =>
        match readCoordinate (longitude formData) 180 with
        | None => Invalid "Longitude must be a valid number between -180 and 180"
        | Some lng =>
            Valid (mkPayload (trim (name formData)) (trim (address formData)) lat lng
                             (orUndefined (trim (orderDetails formData)))
                             (orUndefined (trim (deliveryPerson formData))))
        end
    end.

(** [errorMessage.includes(x)] for [x] one of the two network phrases:
    [None] when it throws (the value has no [includes] method). *)
Definition includesPhrase (v : json) (x : string) : option bool :=
  match v with
  | JStr s => Some (includes s x)
  | JArr xs => Some (existsb (fun e => match e with
                                      | JStr s => String.eqb s x
                                      | _ => false
                                      end) xs)
  | _ => None
  end.

(** The value of [errorMessage] in the [catch] block of [handleSubmit]
    after the [JSON.parse] attempt, for an error with message [m]. *)
Definition errorMessageOf (m : string) : json :=
  if String.eqb m "" then JStr "Failed to add customer"
  else
    match JSON_parse m with
    | ParseError _ => JStr m
    | ParseOk errorData =>
        match get errorData "error" with
        | None => JStr m
        | Some e =>
            if truthy_prop e then match e with Some v => v | None => JStr m end
            else JStr m
        end
    end.

(** The rest of the [catch] block: the network test on [errorMessage]
    and the alert. *)
Definition networkCheck (errorMessage : json) : submitted :=
  match includesPhrase errorMessage "Network request failed" with
  | None => Unhandled
  | Some true => Alerted "Error" (JStr networkMessage)
  | Some false =>
      match includesPhrase errorMessage "Failed to fetch" with
      | None => Unhandled
      | Some true => Alerted "Error" (JStr networkMessage)
      | Some false => Alerted "Error" errorMessage
      end
  end.

(** The [catch] block of [handleSubmit] for an error with message [m]. *)
Definition reportError (m : string) : submitted := networkCheck (errorMessageOf m).

(** [handleSubmit()], given the reply to the request of
    [createCustomer(payload)]: what it shows or does, and the flash slot
    it leaves. *)
Definition handleSubmit (formData : CustomerForm) (reply : Api.fetched) (s : Flash.slot)
  : submitted * Flash.slot :=
  match buildPayload formData with
  | Invalid m => (Alerted "Validation Error" (JStr m), s)
  | Valid payload =>
      match Api.createCustomer JSON_parse reply with
      | Api.Returned _ => (Navigated "/", Flash.setFlash "Customer added successfully" s)
      | Api.Thrown m => (reportError m, s)
      end
  end.
End Submit.

End AddCustomer.

(** ** Example inputs for the screens *)

(** A pending customer away from the equator and the prime meridian. *)
Definition customerD : Customer := exampleCustomer "D" 1 1 "pending".

(** Text with a double quote around it. *)
Definition quoted (s : string) : string :=
  String (ascii_of_nat 34) (s ++ String (ascii_of_nat 34) "").

(** The body [{"error":"Name is required"}] of a rejected request. *)
Definition sampleErrorBody : string :=
  "{" ++ quoted "error" ++ ":" ++ quoted "Name is required" ++ "}".

(** A stand-in for [JSON.parse] that knows the texts of the concrete
    runs. *)
Definition sampleJSONParse (s : string) : parsed :=
  if String.eqb s sampleErrorBody
  then ParseOk (JObj [("error", JStr "Name is required")])
  else if String.eqb s "{}" then ParseOk (JObj [])
  else ParseError "Unexpected token".

(** A stand-in for [parseFloat] that knows the texts of the concrete
    runs. *)
Definition sampleParseFloat (s : string) : AddCustomer.number :=
  if String.eqb s "6.9" then AddCustomer.Finite (69 # 10)
  else if String.eqb s "79.85" then AddCustomer.Finite (7985 # 100)
  else AddCustomer.NaN.

(** A stand-in for [Number::toString] on the concrete coordinates. *)
Definition sampleNumberToString (x : Q) : string :=
  if Qeq_bool x 1 then "1" else if Qeq_bool x 0 then "0" else "?".

(** A filled-in form with a latitude and no longitude. *)
Definition sampleForm : AddCustomer.CustomerForm :=
  AddCustomer.mkForm " Ann " "12 Main Street" "6.9" "" "" " Bob ".

(** ** The haversine distance in IEEE doubles

    [calculateDistance] of the home screen over binary64 numbers
    ([PrimFloat.float], specified by [SpecFloat]). *)

Module Haversine.
Import PrimFloat SpecFloat FloatOps.
Local Open Scope float_scope.
Local Set Warnings "-inexact-float".

(** [Math.round] on the IEEE representation: the integral number
    nearest to [x], ties towards [+Infinity]; [-0] on [[-0.5, -0]]; [x]
    itself when it is integral, infinite or NaN. For [x = m * 2^e] with
    [e < 0] the magnitude of the result is [(m + 2^(n-1)) >> n] when [x]
    is positive and [(m + 2^(n-1) - 1) >> n] when it is negative, with
    [n = -e]. *)
Definition roundSF (x : spec_float) : spec_float :=
  match x with
  | S754_finite s m e =>
      if (0 <=? e)%Z then x
      else
        let n := (- e)%Z in
        let k := Z.shiftr (Zpos m + Z.shiftl 1 (n - 1) - (if s then 1 else 0))%Z n in
        match k with
        | Zpos p => binary_normalize prec emax (cond_Zopp s (Zpos p)) 0 false
        | _ => S754_zero s
        end
  | _ => x
  end.

Definition mathRound (x : float) : float := SF2Prim (roundSF (Prim2SF x)).

(** [Math.PI], the double nearest to pi. *)
Definition PI : float := 0x1.921fb54442d18p+1.

(** [Math.sin], [Math.cos] and [Math.atan2] are implementation-approximated
    in ECMAScript: they are parameters. The arithmetic and [Math.sqrt] are
    correctly rounded to nearest-even: the primitive operations of
    [PrimFloat]. *)
Section Math.
Variables (sin cos : float -> float) (atan2 : float -> float -> float).

(** [calculateDistance] of [src/app/(tabs)/index.tsx], operation by
    operation in the source's order. *)
Definition calculateDistance (lat1 lon1 lat2 lon2 : float) : float :=
  let R := 6371000 in
  let dLat := ((lat2 - lat1) * PI) / 180 in
  let dLon := ((lon2 - lon1) * PI) / 180 in
  let a := sin (dLat / 2) * sin (dLat / 2) +
           cos ((lat1 * PI) / 180) * cos ((lat2 * PI) / 180) *
           sin (dLon / 2) * sin (dLon / 2) in
  let c := 2 * atan2 (sqrt a) (sqrt (1 - a)) in
  let distance := R * c in
  mathRound distance.
End Math.

(** A sign-symmetric extension: [oddExt f] agrees with [f] on numbers
    whose sign bit is clear and is odd. *)
Definition signBit (x : float) : bool :=
  match Prim2SF x with
  | S754_zero s | S754_infinity s | S754_finite s _ _ => s
  | S754_nan => false
  end.

Definition oddExt (f : float -> float) (x : float) : float :=
  if signBit x then - f (- x) else f x.

(** The points [(0.08, 71.08)] and [(-0.08, -108.92)], and the correctly
    rounded values of [sin] and [cos] at the arguments [calculateDistance]
    gives them. *)
Definition halfLatArg : float := ((((-0.08) - 0.08) * PI) / 180) / 2.
Definition halfLonArg : float := ((((-108.92) - 71.08) * PI) / 180) / 2.
Definition sinHalfLat : float := -0x1.6e059ecaa87dcp-10.
Definition cosLat : float := 0x1.ffffdf4abdd1ep-1.

Definition sampleSin : float -> float :=
  oddExt (fun x => if x =? - halfLatArg then - sinHalfLat
                   else if x =? - halfLonArg then 1 else x).
Definition sampleCos (x : float) : float :=
  if (x =? (0.08 * PI) / 180) || (x =? ((-0.08) * PI) / 180) then cosLat else 1.
Definition sampleAtan2 (y x : float) : float := if is_nan x then nan else y.

(** Magnitude bounds on the IEEE representation: [m * 2^e < 2^K] with
    [e <= K]. *)
Local Open Scope Z_scope.
Definition inBound (K m e : Z) : Prop := 0 <= m /\ e <= K /\ m < 2 ^ (K - e).

Definition boundedSF (K : Z) (x : spec_float) : Prop :=
  match x with
  | S754_zero _ => True
  | S754_finite _ m e => inBound K (Zpos m) e
  | _ => False
  end.

End Haversine.

(** * Properties *)

Open Scope list_scope.

From Stdlib Require Import Sorting.Sorted.

(** ** The stable insertion sort *)

Section SortFacts.
Context {A : Type} (cmp : A -> A -> Z).
Local Abbreviation le := (cle cmp).

Lemma insert_perm (x : A) (l : list A) : Permutation (insert cmp x l) (x :: l).
Proof.
  induction l as [|y l IH]; simpl; [reflexivity|].
  destruct (0 <? cmp x y)%Z; [|reflexivity].
  rewrite IH. apply perm_swap.
Qed.

Lemma isort_perm (l : list A) : Permutation (isort cmp l) l.
Proof.
  induction l as [|x l IH]; simpl; [reflexivity|].
  rewrite insert_perm. now apply perm_skip.
Qed.

Lemma filter_insert (f : A -> bool) (x : A) (l : list A) :
  (forall y, f x = true -> f y = true -> (cmp x y <= 0)%Z) ->
  filter f (insert cmp x l) = if f x then x :: filter f l else filter f l.
Proof.
  intros Htie. induction l as [|y l IH]; simpl.
  - destruct (f x); reflexivity.
  - destruct (0 <? cmp x y)%Z eqn:Hlt; simpl.
    + rewrite IH. destruct (f x) eqn:Fx, (f y) eqn:Fy; try reflexivity.
      specialize (Htie y eq_refl Fy). apply Z.ltb_lt in Hlt. lia.
    + destruct (f x), (f y); reflexivity.
Qed.

Lemma filter_isort (f : A -> bool) (l : list A) :
  (forall x y, f x = true -> f y = true -> (cmp x y <= 0)%Z) ->
  filter f (isort cmp l) = filter f l.
Proof.
  intros Htie. induction l as [|x l IH]; simpl; [reflexivity|].
  rewrite filter_insert by auto. rewrite IH. reflexivity.
Qed.

Lemma map_isort {B : Type} (g : B -> A) (l : list B) :
  map g (isort (fun a b => cmp (g a) (g b)) l) = isort cmp (map g l).
Proof.
  induction l as [|x l IH]; simpl; [reflexivity|].
  rewrite <- IH. generalize (isort (fun a b => cmp (g a) (g b)) l) as s.
  induction s as [|y s IHs]; simpl; [reflexivity|].
  destruct (0 <? cmp (g x) (g y))%Z; simpl; now rewrite ?IHs.
Qed.

(** The comparator is a total preorder on the elements satisfying [P]. *)
Variable P : A -> Prop.
Hypothesis cle_trans : forall x y z, P x -> P y -> P z -> le x y -> le y z -> le x z.
Hypothesis cle_total : forall x y, P x -> P y -> ~ le x y -> le y x.

Lemma insert_sorted (x : A) (l : list A) :
  P x -> Forall P l -> StronglySorted le l -> StronglySorted le (insert cmp x l).
Proof.
  intros Px. induction l as [|y l IH]; intros Hp Hs; simpl.
  - repeat constructor.
  - inversion Hp as [|? ? Py Hp']; subst.
    apply StronglySorted_inv in Hs as [Hs Hy].
    destruct (0 <? cmp x y)%Z eqn:Hlt.
    + constructor; [now apply IH|].
      assert (Hyx : le y x).
      { apply cle_total; auto. unfold cle. apply Z.ltb_lt in Hlt. lia. }
      eapply Permutation_Forall; [symmetry; apply insert_perm|].
      now constructor.
    + assert (Hxy : le x y) by (unfold cle; apply Z.ltb_ge in Hlt; lia).
      constructor; [now constructor|].
      constructor; [assumption|].
      apply Forall_forall. intros z Hz.
      apply (cle_trans x y z); auto; eapply Forall_forall; eauto.
Qed.

Lemma isort_sorted (l : list A) : Forall P l -> StronglySorted le (isort cmp l).
Proof.
  induction l as [|x l IH]; simpl; intros Hp; [constructor|].
  inversion Hp; subst. apply insert_sorted; auto.
  eapply Permutation_Forall; [symmetry; apply isort_perm|]; auto.
Qed.
End SortFacts.

Lemma StronglySorted_nth {A} (R : A -> A -> Prop) (l : list A) :
  StronglySorted R l ->
  forall i j a b, (i < j)%nat -> nth_error l i = Some a -> nth_error l j = Some b -> R a b.
Proof.
  induction 1 as [|x l Hs IH Hx]; intros i j a b Hij Hi Hj.
  - destruct i; discriminate.
  - destruct j as [|j]; [now apply Nat.nlt_0_r in Hij|]. simpl in Hj.
    destruct i as [|i]; simpl in Hi.
    + injection Hi as <-. eapply Forall_forall; [exact Hx|].
      eapply nth_error_In; eauto.
    + apply (IH i j a b); [apply Nat.succ_lt_mono; exact Hij|exact Hi|exact Hj].
Qed.

(** ** The ranking comparator is a total preorder away from NaN *)

Definition numericDistance (r : Ranked) : Prop := distance r <> Some JsNaN.

Lemma compareRanked_trans (x y z : Ranked) :
  numericDistance x -> numericDistance y -> numericDistance z ->
  cle (sortCompare compareRanked) x y -> cle (sortCompare compareRanked) y z ->
  cle (sortCompare compareRanked) x z.
Proof.
  unfold numericDistance, cle, sortCompare, compareRanked.
  destruct (distance x) as [[]|], (distance y) as [[]|], (distance z) as [[]|];
    congruence || lia.
Qed.

Lemma compareRanked_total (x y : Ranked) :
  numericDistance x -> numericDistance y ->
  ~ cle (sortCompare compareRanked) x y -> cle (sortCompare compareRanked) y x.
Proof.
  unfold numericDistance, cle, sortCompare, compareRanked.
  destruct (distance x) as [[]|], (distance y) as [[]|]; congruence || lia.
Qed.

Lemma entry_withDistance dist loc (c : Customer) :
  entry (withDistance dist loc c) = c.
Proof.
  unfold withDistance. destruct loc, (coords c) as [[]|]; reflexivity.
Qed.

Lemma map_entry_customersWithDistance dist loc cs q :
  map entry (customersWithDistance dist loc cs q) = filteredCustomers cs q.
Proof.
  unfold customersWithDistance. rewrite map_map.
  erewrite map_ext; [apply map_id|]. apply entry_withDistance.
Qed.



(** ** Membership in the ranked list *)

Lemma In_sortedCustomers dist loc cs q (r : Ranked) :
  In r (sortedCustomers dist loc cs q) <->
  exists c, r = withDistance dist loc c /\ In c cs /\ keepCustomer q c = true.
Proof.
  unfold sortedCustomers. split.
  - intros Hin. apply (Permutation_in _ (isort_perm _ _)) in Hin.
    unfold customersWithDistance, filteredCustomers in Hin.
    apply in_map_iff in Hin as (c & <- & Hc). apply filter_In in Hc.
    exists c. tauto.
  - intros (c & -> & Hc & Hk). apply (Permutation_in _ (Permutation_sym (isort_perm _ _))).
    apply in_map. apply filter_In. auto.
Qed.

Lemma In_entries_sortedCustomers dist loc cs q (c : Customer) :
  In c (map entry (sortedCustomers dist loc cs q)) <->
  In c cs /\ keepCustomer q c = true.
Proof.
  rewrite in_map_iff. split.
  - intros (r & <- & Hr). apply In_sortedCustomers in Hr as (c & -> & Hc & Hk).
    rewrite entry_withDistance. auto.
  - intros [Hc Hk]. exists (withDistance dist loc c). split; [apply entry_withDistance|].
    apply In_sortedCustomers. eauto.
Qed.

Lemma keepCustomer_not_delivered q c :
  keepCustomer q c = true -> isDelivered c = false.
Proof.
  unfold keepCustomer. destruct (isDelivered c); [discriminate|reflexivity].
Qed.

Lemma filter_keep_not_delivered q cs :
  filter (keepCustomer q) (filter (fun c => negb (isDelivered c)) cs) =
  filter (keepCustomer q) cs.
Proof.
  induction cs as [|c cs IH]; simpl; [reflexivity|].
  destruct (isDelivered c) eqn:Hd; simpl.
  - unfold keepCustomer at 2. rewrite Hd. exact IH.
  - destruct (keepCustomer q c); now rewrite IH.
Qed.

(** C2: no entry of [sortedCustomers] has a status whose lower case is
    "delivered", and dropping the delivered customers from the input
    first changes nothing: they are excluded before the query test and
    before any distance is computed. *)
Theorem sortedCustomers_no_delivered
    (calculateDistance : Q -> Q -> Q -> Q -> jsint) (currentLocation : option Location)
    (customers : list Customer) (searchQuery : string) :
  (forall r, In r (sortedCustomers calculateDistance currentLocation customers searchQuery) ->
     toLowerCase (status (entry r)) <> "delivered") /\
  sortedCustomers calculateDistance currentLocation customers searchQuery =
  sortedCustomers calculateDistance currentLocation
    (filter (fun c => negb (isDelivered c)) customers) searchQuery.
Proof.
  split.
  - intros r Hr. apply In_sortedCustomers in Hr as (c & -> & _ & Hk).
    rewrite entry_withDistance. apply keepCustomer_not_delivered in Hk.
    unfold isDelivered in Hk. now apply String.eqb_neq.
  - unfold sortedCustomers, customersWithDistance, filteredCustomers.
    now rewrite filter_keep_not_delivered.
Qed.

(** C3: on the example of the spec (device at (0,0); A at (0,0) and B at
    (0,1) pending; C at (0,0.5) delivered) the code attaches no distance
    to A nor to B, because their latitude 0 is falsy, and
    [getNearestCustomerInfo] finds no customer, whatever the distance
    function. *)
Theorem spec_example_zero_latitude
    (calculateDistance : Q -> Q -> Q -> Q -> jsint) :
  sortedCustomers calculateDistance (Some deviceAtOrigin)
    [customerA; customerB; customerC] "" =
  [mkRanked customerA None; mkRanked customerB None] /\
  getNearestCustomerInfo calculateDistance (Some deviceAtOrigin)
    [customerA; customerB; customerC] = None.
Proof. split; reflexivity. Qed.

(** ** [getNearestCustomerInfo] *)

Lemma nearestStep_eligible dist l st c :
  nearestStep dist l st c =
  match eligibleDistance dist l c with
  | None | Some JsNaN => st
  | Some (JsInt d) =>
      if match snd st with None => true | Some m => (d <? m)%Z end
      then (Some (mkNearest c d), Some d) else st
  end.
Proof.
  unfold nearestStep, eligibleDistance.
  destruct (coords c) as [[la lo]|]; [|reflexivity].
  destruct (isDelivered c); [reflexivity|].
  destruct (dist _ _ _ _); reflexivity.
Qed.

Lemma fold_nearestStep_ineligible dist l cs st :
  Forall (fun c => forall e, eligibleDistance dist l c <> Some (JsInt e)) cs ->
  fold_left (nearestStep dist l) cs st = st.
Proof.
  intros H. revert st. induction H as [|c cs Hc _ IH]; intros st; simpl; [reflexivity|].
  rewrite nearestStep_eligible.
  destruct (eligibleDistance dist l c) as [[e|]|]; [now destruct (Hc e)|apply IH|apply IH].
Qed.

Lemma coords_none_of_missing c :
  latitude c = None \/ longitude c = None -> coords c = None.
Proof.
  unfold coords. intros [H|H]; rewrite H; [reflexivity|].
  destruct (latitude c); reflexivity.
Qed.

(** C4: [getNearestCustomerInfo] returns [null] when there is no device
    position, and when every customer is delivered or lacks a latitude or
    a longitude (the empty list included); the result is a plain value,
    there is no failure path. *)
Theorem getNearest_none
    (calculateDistance : Q -> Q -> Q -> Q -> jsint) (currentLocation : option Location)
    (customers : list Customer)
    (Hnone : currentLocation = None \/
             Forall (fun c => isDelivered c = true \/ latitude c = None \/ longitude c = None)
                    customers) :
  getNearestCustomerInfo calculateDistance currentLocation customers = None.
Proof.
  unfold getNearestCustomerInfo. destruct currentLocation as [l|]; [|reflexivity].
  destruct Hnone as [Hl|Hall]; [discriminate|].
  rewrite fold_nearestStep_ineligible; [reflexivity|].
  eapply Forall_impl; [|exact Hall]. intros c Hc e. unfold eligibleDistance.
  destruct Hc as [Hd|Hm].
  - destruct (coords c) as [[]|]; [rewrite Hd|]; discriminate.
  - now rewrite coords_none_of_missing.
Qed.

(** The running minimum of [getNearestCustomerInfo]: after a prefix of the
    customers the state is empty when no customer was eligible, and
    otherwise holds the first eligible customer of least distance; an
    eligible customer at a NaN distance is passed over. *)
Lemma fold_nearestStep_spec dist l cs :
  match fold_left (nearestStep dist l) cs (None, None) with
  | (None, None) => Forall (fun c => forall e, eligibleDistance dist l c <> Some (JsInt e)) cs
  | (Some n, Some d) =>
      d = near_distance n /\
      exists pre post, cs = pre ++ near n :: post /\
        eligibleDistance dist l (near n) = Some (JsInt d) /\
        Forall (fun c => forall e, eligibleDistance dist l c = Some (JsInt e) -> (d < e)%Z) pre /\
        Forall (fun c => forall e, eligibleDistance dist l c = Some (JsInt e) -> (d <= e)%Z) post
  | _ => False
  end.
Proof.
  induction cs as [|c cs IH] using rev_ind; simpl; [constructor|].
  rewrite fold_left_app. simpl.
  destruct (fold_left (nearestStep dist l) cs (None, None)) as [[n|] [d|]];
    try contradiction; rewrite nearestStep_eligible; simpl.
  - destruct IH as (-> & pre & post & -> & Hn & Hpre & Hpost).
    destruct (eligibleDistance dist l c) as [[e|]|] eqn:Hc.
    + destruct (e <? near_distance n)%Z eqn:Hlt.
      * apply Z.ltb_lt in Hlt. split; [reflexivity|].
        exists (pre ++ near n :: post), []. simpl. repeat split; auto.
        apply Forall_app. split; [|constructor].
        -- eapply Forall_impl; [|exact Hpre]. intros x Hx e' He'.
           specialize (Hx e' He'). lia.
        -- intros e' He'. rewrite Hn in He'. injection He' as <-. lia.
        -- eapply Forall_impl; [|exact Hpost]. intros x Hx e' He'.
           specialize (Hx e' He'). lia.
      * apply Z.ltb_ge in Hlt. split; [reflexivity|].
        exists pre, (post ++ [c]). rewrite <- app_assoc. simpl.
        repeat split; auto. apply Forall_app. split; [exact Hpost|].
        constructor; [|constructor]. intros e' He'. rewrite Hc in He'.
        injection He' as <-. lia.
    + split; [reflexivity|]. exists pre, (post ++ [c]).
      rewrite <- app_assoc. simpl. repeat split; auto.
      apply Forall_app. split; [exact Hpost|].
      constructor; [|constructor]. intros e' He'. congruence.
    + split; [reflexivity|]. exists pre, (post ++ [c]).
      rewrite <- app_assoc. simpl. repeat split; auto.
      apply Forall_app. split; [exact Hpost|].
      constructor; [|constructor]. intros e' He'. congruence.
  - destruct (eligibleDistance dist l c) as [[e|]|] eqn:Hc.
    + split; [reflexivity|]. exists cs, []. simpl. repeat split; auto.
      eapply Forall_impl; [|exact IH]. intros x Hx e' He'. exfalso. exact (Hx e' He').
    + apply Forall_app. split; [exact IH|]. constructor; [|constructor]. congruence.
    + apply Forall_app. split; [exact IH|]. constructor; [|constructor]. congruence.
Qed.

(** The tie-break of [getNearestCustomerInfo] among the customers it
    considers (truthy coordinates, not delivered): the customer returned
    is strictly nearer than every considered customer before it and no
    farther than every one after it, so of equally near customers the
    first one wins; and some customer is returned as soon as one is
    considered at a distance that is not NaN. *)
Lemma getNearest_first_minimal dist l cs :
  (forall n, getNearestCustomerInfo dist (Some l) cs = Some n ->
     exists pre post, cs = pre ++ near n :: post /\
       eligibleDistance dist l (near n) = Some (JsInt (near_distance n)) /\
       Forall (fun c => forall e, eligibleDistance dist l c = Some (JsInt e) ->
                                  (near_distance n < e)%Z) pre /\
       Forall (fun c => forall e, eligibleDistance dist l c = Some (JsInt e) ->
                                  (near_distance n <= e)%Z) post) /\
  ((exists c, In c cs /\ exists e, eligibleDistance dist l c = Some (JsInt e)) ->
     getNearestCustomerInfo dist (Some l) cs <> None).
Proof.
  unfold getNearestCustomerInfo. pose proof (fold_nearestStep_spec dist l cs) as H.
  destruct (fold_left (nearestStep dist l) cs (None, None)) as [[n|] [d|]];
    try contradiction; simpl; split.
  - intros n' Hn'. injection Hn' as <-.
    destruct H as (-> & pre & post & Hcs & Hn & Hpre & Hpost).
    exists pre, post. auto.
  - intros _; discriminate.
  - intros n' Hn'; discriminate.
  - intros (c & Hc & e & He) _. eapply Forall_forall in H; [exact (H e He)|exact Hc].
Qed.

(** C5: two pending customers at the same place on the equator are
    equally near any device, yet [getNearestCustomerInfo] returns neither
    of them, because their latitude 0 is falsy. *)
Theorem getNearest_equator_tie
    (calculateDistance : Q -> Q -> Q -> Q -> jsint) :
  getNearestCustomerInfo calculateDistance (Some deviceAtOrigin)
    [customerX; customerY] = None.
Proof. reflexivity. Qed.

(** ** The search query *)

Lemma toLowerCase_empty (s : string) : toLowerCase s = "" <-> s = "".
Proof. destruct s; simpl; split; congruence. Qed.

Lemma matchesQuery_spec (q : string) (c : Customer) :
  matchesQuery (toLowerCase q) c = true <->
  containsCI (name c) q = true \/ containsCI (address c) q = true \/
  (exists d, deliveryPerson c = Some d /\ containsCI d q = true) \/
  (exists o, orderDetails c = Some o /\ containsCI o q = true).
Proof.
  unfold matchesQuery, containsCI. rewrite !orb_true_iff. split.
  - intros [[[H|H]|H]|H].
    + left; exact H.
    + right; left; exact H.
    + right; right; left. destruct (deliveryPerson c) as [d|]; [now exists d|discriminate].
    + right; right; right. destruct (orderDetails c) as [o|]; [now exists o|discriminate].
  - intros [H|[H|[(d & Hd & H)|(o & Ho & H)]]].
    + left; left; left; exact H.
    + left; left; right; exact H.
    + left; right. rewrite Hd. exact H.
    + right. rewrite Ho. exact H.
Qed.

(** C6: a non-delivered customer of the input is in the result of
    [sortedCustomers] exactly when, for a query that is not blank after
    [trim], its name, address, deliveryPerson or orderDetails contains
    the trimmed query case-insensitively, an absent optional field not
    matching; for a blank query it is always in the result. *)
Theorem sortedCustomers_query
    (calculateDistance : Q -> Q -> Q -> Q -> jsint) (currentLocation : option Location)
    (customers : list Customer) (searchQuery : string) (c : Customer)
    (Hin : In c customers) (Hnd : isDelivered c = false) :
  (trim searchQuery <> "" ->
     (In c (map entry (sortedCustomers calculateDistance currentLocation customers searchQuery))
      <->
      containsCI (name c) (trim searchQuery) = true \/
      containsCI (address c) (trim searchQuery) = true \/
      (exists d, deliveryPerson c = Some d /\ containsCI d (trim searchQuery) = true) \/
      (exists o, orderDetails c = Some o /\ containsCI o (trim searchQuery) = true))) /\
  (trim searchQuery = "" ->
     In c (map entry (sortedCustomers calculateDistance currentLocation customers searchQuery))).
Proof.
  rewrite In_entries_sortedCustomers.
  unfold keepCustomer. rewrite Hnd. cbv zeta. split.
  - intros Hq. destruct (String.eqb (toLowerCase (trim searchQuery)) "") eqn:He.
    { apply String.eqb_eq, (proj1 (toLowerCase_empty _)) in He. contradiction. }
    split; intros H; [apply matchesQuery_spec; tauto|].
    split; [assumption|]. now apply matchesQuery_spec.
  - intros ->. simpl. auto.
Qed.

(** ** Coordinates equal to 0 *)

Lemma coords_zero c :
  (exists x, (latitude c = Some x \/ longitude c = Some x) /\ (x == 0)%Q) ->
  coords c = None.
Proof.
  intros (x & Hx & H0).
  assert (Ht : truthy x = false).
  { unfold truthy. now rewrite (proj2 (Qeq_bool_iff x 0) H0). }
  unfold coords. destruct Hx as [H|H]; rewrite H.
  - destruct (longitude c); [|reflexivity]. now rewrite Ht.
  - destruct (latitude c); [|reflexivity]. now rewrite Ht, andb_false_r.
Qed.

(** C9: a customer whose latitude or longitude is 0 gets no distance in
    [sortedCustomers], even with a known device position, and
    [getNearestCustomerInfo] skips it: removing it from the input does not
    change the result. *)
Theorem zero_coordinate_is_no_position
    (calculateDistance : Q -> Q -> Q -> Q -> jsint) (device : Location)
    (customers : list Customer) (searchQuery : string) (c : Customer)
    (Hzero : exists x, (latitude c = Some x \/ longitude c = Some x) /\ (x == 0)%Q) :
  (forall r, In r (sortedCustomers calculateDistance (Some device) customers searchQuery) ->
     entry r = c -> distance r = None) /\
  (forall pre post,
     getNearestCustomerInfo calculateDistance (Some device) (pre ++ c :: post) =
     getNearestCustomerInfo calculateDistance (Some device) (pre ++ post)).
Proof.
  pose proof (coords_zero c Hzero) as Hc. split.
  - intros r Hr Hrc. apply In_sortedCustomers in Hr as (c' & -> & _ & _).
    rewrite entry_withDistance in Hrc. subst c'.
    unfold withDistance. now rewrite Hc.
  - intros pre post. unfold getNearestCustomerInfo.
    rewrite !fold_left_app. simpl. unfold nearestStep at 2. now rewrite Hc.
Qed.

(** ** The flash-message relay *)

Module FlashFacts.
Import Flash.
Local Open Scope list_scope.

Lemma run_tagged_erase i s ops :
  map (option_map snd) (run_tagged i s ops) = run (option_map snd s) ops.
Proof.
  revert i s. induction ops as [|[m|] ops IH]; intros i s; simpl; auto.
  now rewrite IH.
Qed.

Lemma run_tagged_fresh ops : forall i s,
  (forall j m, s = Some (j, m) -> (j < i)%nat) ->
  NoDup (returned_tags (run_tagged i s ops)) /\
  (forall t, In t (returned_tags (run_tagged i s ops)) ->
     (i <= t)%nat \/ exists m, s = Some (t, m)).
Proof.
  induction ops as [|[m|] ops IH]; intros i s Hs; simpl.
  - split; [constructor|intros t []].
  - destruct (IH (S i) (Some (i, m))) as [Hnd Hin].
    { intros j m' [= -> ->]. apply Nat.lt_succ_diag_r. }
    split; [exact Hnd|]. intros t Ht. left.
    destruct (Hin t Ht) as [Hle|(m' & [= -> ->])];
      [apply Nat.lt_le_incl; exact Hle|apply Nat.le_refl].
  - destruct (IH (S i) None) as [Hnd Hin]; [discriminate|].
    split.
    + destruct s as [[j m]|]; simpl; [|exact Hnd].
      constructor; [|exact Hnd]. intros Hj.
      destruct (Hin j Hj) as [Hle|(? & ?)]; [|discriminate].
      specialize (Hs j m eq_refl). apply (Nat.lt_irrefl j).
      eapply Nat.lt_le_trans; [exact Hs|]. apply Nat.lt_le_incl. exact Hle.
    + intros t Ht. destruct s as [[j m]|]; simpl in Ht.
      * destruct Ht as [<-|Ht]; [right; eauto|].
        destruct (Hin t Ht) as [Hle|(? & ?)]; [|discriminate].
        left. apply Nat.lt_le_incl. exact Hle.
      * destruct (Hin t Ht) as [Hle|(? & ?)]; [|discriminate].
        left. apply Nat.lt_le_incl. exact Hle.
Qed.

Lemma run_tagged_origin ops : forall pre s,
  (forall j m, s = Some (j, m) -> nth_error pre j = Some (SetFlash m)) ->
  Forall (fun o => match o with
                   | Some (j, m) => nth_error (pre ++ ops) j = Some (SetFlash m)
                   | None => True end)
         (run_tagged (List.length pre) s ops).
Proof.
  induction ops as [|[m|] ops IH]; intros pre s Hs; simpl; [constructor| |].
  - replace (pre ++ SetFlash m :: ops) with ((pre ++ [SetFlash m]) ++ ops)
      by (rewrite <- app_assoc; reflexivity).
    replace (S (List.length pre)) with (List.length (pre ++ [SetFlash m]))
      by (rewrite length_app; simpl; apply Nat.add_1_r).
    apply IH. intros j m' [= <- <-].
    rewrite nth_error_app2, Nat.sub_diag by apply Nat.le_refl. reflexivity.
  - replace (pre ++ ConsumeFlash :: ops) with ((pre ++ [ConsumeFlash]) ++ ops)
      by (rewrite <- app_assoc; reflexivity).
    constructor.
    + destruct s as [[j m]|]; [|exact I].
      specialize (Hs j m eq_refl).
      rewrite <- app_assoc. rewrite nth_error_app1; [exact Hs|].
      apply nth_error_Some. congruence.
    + replace (S (List.length pre)) with (List.length (pre ++ [ConsumeFlash]))
        by (rewrite length_app; simpl; apply Nat.add_1_r).
      apply IH. intros j m' ?; discriminate.
Qed.

(** C10: the flash slot is read once: a [consumeFlash] right after
    [setFlash(m)] returns [m] and leaves the slot empty; [consumeFlash]
    on the empty slot returns [null]; and in every sequence of calls
    from the empty slot, each message returned by a [consumeFlash] was
    stored by a [setFlash] call, and no [setFlash] call has its message
    returned by two [consumeFlash] calls. *)
Theorem flash_read_once :
  (forall s m ops,
     run s (SetFlash m :: ConsumeFlash :: ops) = Some m :: run None ops) /\
  (forall ops, run None (ConsumeFlash :: ops) = None :: run None ops) /\
  (forall ops,
     map (option_map snd) (run_tagged 0 None ops) = run None ops /\
     NoDup (returned_tags (run_tagged 0 None ops)) /\
     Forall (fun o => match o with
                      | Some (j, m) => nth_error ops j = Some (SetFlash m)
                      | None => True end)
            (run_tagged 0 None ops)).
Proof.
  split; [reflexivity|]. split; [reflexivity|]. intros ops. split; [|split].
  - apply run_tagged_erase.
  - apply run_tagged_fresh. discriminate.
  - apply (run_tagged_origin ops []). discriminate.
Qed.
End FlashFacts.

(** ** The ranking leaves the caller's objects alone *)

Module HeapFacts.
Import Heap.
Local Open Scope nat_scope.
Local Open Scope list_scope.

Lemma Extends_refl h : Extends h h.
Proof. split; [apply Nat.le_refl|reflexivity]. Qed.

Lemma Extends_trans h1 h2 h3 : Extends h1 h2 -> Extends h2 h3 -> Extends h1 h3.
Proof.
  intros [Hn1 Hm1] [Hn2 Hm2]. split; [eapply Nat.le_trans; eauto|].
  intros l Hl. rewrite Hm2, Hm1; auto. eapply Nat.lt_le_trans; eauto.
Qed.

Lemma mem_extends h h' l o :
  heap_ok h -> Extends h h' -> mem h l = Some o -> mem h' l = Some o.
Proof.
  intros Hok [_ Hm] Hl. destruct (Nat.lt_ge_cases l (next h)) as [Hlt|Hge].
  - rewrite Hm; auto.
  - rewrite Hok in Hl; [discriminate|exact Hge].
Qed.

Ltac read_extends :=
  intros h h' l x Hok Hext;
  match goal with |- ?rd _ _ = _ -> _ => unfold rd end;
  destruct (mem h l) as [o|] eqn:Ho; [|discriminate];
  rewrite (mem_extends h h' l o Hok Hext Ho); tauto.

Lemma read_customer_extends : forall h h' l x,
  heap_ok h -> Extends h h' -> read_customer h l = Some x -> read_customer h' l = Some x.
Proof. read_extends. Qed.
Lemma read_ranked_extends : forall h h' l x,
  heap_ok h -> Extends h h' -> read_ranked h l = Some x -> read_ranked h' l = Some x.
Proof. read_extends. Qed.
Lemma read_array_extends : forall h h' l x,
  heap_ok h -> Extends h h' -> read_array h l = Some x -> read_array h' l = Some x.
Proof. read_extends. Qed.
Lemma read_nearest_extends : forall h h' l x,
  heap_ok h -> Extends h h' -> read_nearest h l = Some x -> read_nearest h' l = Some x.
Proof. read_extends. Qed.

Lemma traverse_extends {A} (rd : heap -> loc -> option A)
    (Hrd : forall h h' l x, heap_ok h -> Extends h h' -> rd h l = Some x -> rd h' l = Some x)
    h h' ls xs :
  heap_ok h -> Extends h h' -> traverse (rd h) ls = Some xs -> traverse (rd h') ls = Some xs.
Proof.
  intros Hok Hext. revert xs. induction ls as [|l ls IH]; intros xs Hls; simpl in *; auto.
  destruct (rd h l) as [x|] eqn:Hx, (traverse (rd h) ls) as [ys|] eqn:Hys;
    try discriminate.
  rewrite (Hrd _ _ _ _ Hok Hext Hx), (IH ys eq_refl). exact Hls.
Qed.

Lemma bind_ok {A B} (m : M A) (k : A -> M B) h x h' :
  m h = Some (x, h') -> bind m k h = k x h'.
Proof. intros H. unfold bind. now rewrite H. Qed.

Lemma alloc_ok o h :
  heap_ok h ->
  alloc o h = Some (next h, mkHeap (upd (mem h) (next h) o) (S (next h))) /\
  heap_ok (mkHeap (upd (mem h) (next h) o) (S (next h))) /\
  Extends h (mkHeap (upd (mem h) (next h) o) (S (next h))) /\
  mem (mkHeap (upd (mem h) (next h) o) (S (next h))) (next h) = Some o.
Proof.
  intros Hok. split; [reflexivity|]. split; [|split].
  - intros l Hl. simpl in *. unfold upd.
    destruct (Nat.eqb_spec l (next h)) as [->|Hne]; [now apply Nat.nle_succ_diag_l in Hl|].
    apply Hok. eapply Nat.le_trans; [apply Nat.le_succ_diag_r|exact Hl].
  - split; simpl; [apply Nat.le_succ_diag_r|]. intros l Hl. unfold upd.
    destruct (Nat.eqb_spec l (next h)) as [->|]; [now apply Nat.lt_irrefl in Hl|reflexivity].
  - simpl. unfold upd. now rewrite Nat.eqb_refl.
Qed.

Lemma lift_ok {A} (rd : heap -> loc -> option A) h l x :
  rd h l = Some x -> lift rd l h = Some (x, h).
Proof. intros H. unfold lift. now rewrite H. Qed.

Lemma getCustomer_ok h l c :
  read_customer h l = Some c -> getCustomer l h = Some (c, h).
Proof. apply lift_ok. Qed.
Lemma getRanked_ok h l r :
  read_ranked h l = Some r -> getRanked l h = Some (r, h).
Proof. apply lift_ok. Qed.
Lemma getArray_ok h l ls :
  read_array h l = Some ls -> getArray l h = Some (ls, h).
Proof. apply lift_ok. Qed.

Lemma traverse_map_fst {A} (rd : loc -> option A) (ps : list (loc * A)) :
  Forall (fun p => rd (fst p) = Some (snd p)) ps ->
  traverse rd (map fst ps) = Some (map snd ps).
Proof.
  induction 1 as [|p ps Hp _ IH]; simpl; [reflexivity|]. now rewrite Hp, IH.
Qed.

Section Screen.
Variable dist : Q -> Q -> Q -> Q -> jsint.
Variable currentLocation : option Location.

Lemma filterM_ok (p : Customer -> bool) h ls cs :
  traverse (read_customer h) ls = Some cs ->
  exists kept,
    filterM (fun l => c <- getCustomer l ;; ret (p c)) ls h = Some (kept, h) /\
    traverse (read_customer h) kept = Some (filter p cs).
Proof.
  revert cs. induction ls as [|l ls IH]; intros cs Hls; simpl in *.
  - injection Hls as <-. exists []. auto.
  - destruct (read_customer h l) as [c|] eqn:Hc,
             (traverse (read_customer h) ls) as [cs'|] eqn:Hcs; try discriminate.
    injection Hls as <-. destruct (IH cs' eq_refl) as (kept & Hk & Ht).
    assert (Hf : (c0 <- getCustomer l ;; ret (p c0)) h = Some (p c, h)).
    { rewrite (bind_ok _ _ _ _ _ (getCustomer_ok _ _ _ Hc)). reflexivity. }
    cbn [filterM]. rewrite (bind_ok _ _ _ _ _ Hf), (bind_ok _ _ _ _ _ Hk). unfold ret.
    simpl. destruct (p c); [exists (l :: kept); simpl; rewrite Hc, Ht|exists kept]; auto.
Qed.

Lemma mapM_alloc_ok h ls cs :
  heap_ok h -> traverse (read_customer h) ls = Some cs ->
  exists rs h',
    mapM (fun l => c <- getCustomer l ;;
                   alloc (ORanked (withDistance dist currentLocation c))) ls h
      = Some (rs, h') /\
    heap_ok h' /\ Extends h h' /\
    traverse (read_ranked h') rs = Some (map (withDistance dist currentLocation) cs) /\
    Forall (fun r => next h <= r < next h') rs.
Proof.
  revert h cs. induction ls as [|l ls IH]; intros h cs Hok Hls; simpl in *.
  - injection Hls as <-. exists [], h. repeat split; auto using Extends_refl.
  - destruct (read_customer h l) as [c|] eqn:Hc,
             (traverse (read_customer h) ls) as [cs'|] eqn:Hcs; try discriminate.
    injection Hls as <-.
    set (o := ORanked (withDistance dist currentLocation c)).
    destruct (alloc_ok o h Hok) as (Ha & Hok1 & Hext1 & Hm1).
    set (h1 := mkHeap (upd (mem h) (next h) o) (S (next h))) in *.
    pose proof (traverse_extends _ read_customer_extends h h1 ls cs' Hok Hext1 Hcs) as Hcs1.
    destruct (IH h1 cs' Hok1 Hcs1) as (rs & h' & Hrs & Hok' & Hext' & Htr & Hfresh).
    exists (next h :: rs), h'.
    assert (Hf : (c0 <- getCustomer l ;;
                  alloc (ORanked (withDistance dist currentLocation c0))) h
                 = Some (next h, h1)).
    { rewrite (bind_ok _ _ _ _ _ (getCustomer_ok _ _ _ Hc)). exact Ha. }
    cbn [mapM]. rewrite (bind_ok _ _ _ _ _ Hf), (bind_ok _ _ _ _ _ Hrs).
    split; [reflexivity|]. split; [exact Hok'|]. split; [eapply Extends_trans; eauto|].
    split.
    + simpl. rewrite Htr.
      assert (Hr : read_ranked h1 (next h) = Some (withDistance dist currentLocation c))
        by (unfold read_ranked; now rewrite Hm1).
      now rewrite (read_ranked_extends _ _ _ _ Hok1 Hext' Hr).
    + destruct Hext' as [Hle _]. simpl in Hle. constructor.
      * split; [apply Nat.le_refl|]. eapply Nat.lt_le_trans; [|exact Hle].
        apply Nat.lt_succ_diag_r.
      * eapply Forall_impl; [|exact Hfresh]. simpl. intros r [Hr1 Hr2].
        split; [|exact Hr2]. eapply Nat.le_trans; [|exact Hr1]. apply Nat.le_succ_diag_r.
Qed.

Lemma filterCustomers_ok q h arr cs :
  heap_ok h -> array_of read_customer h arr = Some cs ->
  exists f h1, filterCustomers q arr h = Some (f, h1) /\
    heap_ok h1 /\ Extends h h1 /\ next h <= f /\
    array_of read_customer h1 f = Some (filter (keepCustomer q) cs).
Proof.
  intros Hok Hcs. unfold array_of in Hcs.
  destruct (read_array h arr) as [ls|] eqn:Ha; [|discriminate].
  destruct (filterM_ok (keepCustomer q) h ls cs Hcs) as (kept & Hk & Ht).
  destruct (alloc_ok (OArray kept) h Hok) as (Hal & Hok1 & Hext1 & Hm1).
  eexists _, _. unfold filterCustomers.
  rewrite (bind_ok _ _ _ _ _ (getArray_ok _ _ _ Ha)), (bind_ok _ _ _ _ _ Hk).
  split; [exact Hal|]. split; [exact Hok1|]. split; [exact Hext1|].
  split; [apply Nat.le_refl|].
  unfold array_of, read_array. rewrite Hm1.
  exact (traverse_extends _ read_customer_extends _ _ _ _ Hok Hext1 Ht).
Qed.

Lemma mapWithDistance_ok h arr cs :
  heap_ok h -> array_of read_customer h arr = Some cs ->
  exists m h1 rs, mapWithDistance dist currentLocation arr h = Some (m, h1) /\
    heap_ok h1 /\ Extends h h1 /\ next h <= m /\
    read_array h1 m = Some rs /\
    traverse (read_ranked h1) rs = Some (map (withDistance dist currentLocation) cs) /\
    Forall (fun r => next h <= r) rs.
Proof.
  intros Hok Hcs. unfold array_of in Hcs.
  destruct (read_array h arr) as [ls|] eqn:Ha; [|discriminate].
  destruct (mapM_alloc_ok h ls cs Hok Hcs) as (rs & h1 & Hrs & Hok1 & Hext1 & Ht & Hfr).
  destruct (alloc_ok (OArray rs) h1 Hok1) as (Hal & Hok2 & Hext2 & Hm2).
  eexists _, _, rs. unfold mapWithDistance.
  rewrite (bind_ok _ _ _ _ _ (getArray_ok _ _ _ Ha)), (bind_ok _ _ _ _ _ Hrs).
  split; [exact Hal|]. split; [exact Hok2|]. split; [eapply Extends_trans; eauto|].
  split; [apply Hext1|].
  split; [unfold read_array; now rewrite Hm2|].
  split; [exact (traverse_extends _ read_ranked_extends _ _ _ _ Hok1 Hext2 Ht)|].
  eapply Forall_impl; [|exact Hfr]. simpl. tauto.
Qed.

Lemma mapM_read_ok h rs vals :
  traverse (read_ranked h) rs = Some vals ->
  exists ps, mapM (fun l => r <- getRanked l ;; ret (l, r)) rs h = Some (ps, h) /\
    map fst ps = rs /\ map snd ps = vals /\
    Forall (fun p => read_ranked h (fst p) = Some (snd p)) ps.
Proof.
  revert vals. induction rs as [|l rs IH]; intros vals Hrs; simpl in *.
  - injection Hrs as <-. exists []. repeat split; constructor.
  - destruct (read_ranked h l) as [r|] eqn:Hr,
             (traverse (read_ranked h) rs) as [vs|] eqn:Hvs; try discriminate.
    injection Hrs as <-. destruct (IH vs eq_refl) as (ps & Hps & Hf & Hs & Hall).
    assert (Hl : (r0 <- getRanked l ;; ret (l, r0)) h = Some ((l, r), h)).
    { rewrite (bind_ok _ _ _ _ _ (getRanked_ok _ _ _ Hr)). reflexivity. }
    exists ((l, r) :: ps). cbn [mapM].
    rewrite (bind_ok _ _ _ _ _ Hl), (bind_ok _ _ _ _ _ Hps).
    simpl. rewrite Hf, Hs. repeat split; auto.
Qed.

Lemma sortInPlace_ok h m rs vals :
  heap_ok h -> read_array h m = Some rs -> traverse (read_ranked h) rs = Some vals ->
  exists h1 ls, sortInPlace m h = Some (m, h1) /\
    heap_ok h1 /\ next h1 = next h /\ (forall l, l <> m -> mem h1 l = mem h l) /\
    read_array h1 m = Some ls /\ Permutation ls rs /\
    traverse (read_ranked h1) ls = Some (isort (sortCompare compareRanked) vals).
Proof.
  intros Hok Ha Ht.
  destruct (mapM_read_ok h rs vals Ht) as (ps & Hps & Hf & Hs & Hall).
  set (sorted := isort (fun a b => sortCompare compareRanked (snd a) (snd b)) ps).
  set (h1 := mkHeap (upd (mem h) m (OArray (map fst sorted))) (next h)).
  assert (Hw : write m (OArray (map fst sorted)) h = Some (tt, h1)).
  { unfold write. unfold read_array in Ha. destruct (mem h m); [reflexivity|discriminate]. }
  assert (Hmem : forall l, l <> m -> mem h1 l = mem h l).
  { intros l Hl. unfold h1, upd; simpl. now rewrite (proj2 (Nat.eqb_neq l m) Hl). }
  exists h1, (map fst sorted). unfold sortInPlace.
  rewrite (bind_ok _ _ _ _ _ (getArray_ok _ _ _ Ha)), (bind_ok _ _ _ _ _ Hps),
          (bind_ok _ _ _ _ _ Hw).
  split; [reflexivity|]. split.
  { intros l Hl. simpl in Hl. unfold h1, upd; simpl.
    destruct (Nat.eqb_spec l m) as [->|]; [|now apply Hok].
    exfalso. unfold read_array in Ha. rewrite Hok in Ha; [discriminate|exact Hl]. }
  split; [reflexivity|]. split; [exact Hmem|]. split.
  { unfold read_array, h1, upd; simpl. now rewrite Nat.eqb_refl. }
  split.
  { rewrite <- Hf. apply Permutation_map. apply isort_perm. }
  assert (Hall1 : Forall (fun p => read_ranked h1 (fst p) = Some (snd p)) sorted).
  { eapply Permutation_Forall; [symmetry; apply isort_perm|].
    eapply Forall_impl; [|exact Hall]. intros [l r] Hlr. cbn [fst snd] in *.
    assert (Hne : l <> m).
    { intros ->. unfold read_array, read_ranked in *.
      destruct (mem h m) as [[]|]; discriminate. }
    unfold read_ranked. rewrite (Hmem l Hne). exact Hlr. }
  rewrite (traverse_map_fst _ _ Hall1). unfold sorted.
  rewrite (map_isort (sortCompare compareRanked) snd ps). now rewrite Hs.
Qed.

Lemma NearRel_extends h0 h h' sM sP :
  heap_ok h -> Extends h h' -> NearRel h0 h sM sP -> NearRel h0 h' sM sP.
Proof.
  intros Hok Hext [Hs Hf]. split; [exact Hs|].
  destruct (fst sM), (fst sP); try contradiction; auto.
  destruct Hf as [Hle Hr]. split; [exact Hle|].
  exact (read_nearest_extends _ _ _ _ Hok Hext Hr).
Qed.

Lemma nearestStepM_ok l h0 h cl c sM sP :
  heap_ok h -> Extends h0 h -> read_customer h cl = Some c -> NearRel h0 h sM sP ->
  exists sM' h', nearestStepM dist l sM cl h = Some (sM', h') /\
    heap_ok h' /\ Extends h h' /\ NearRel h0 h' sM' (nearestStep dist l sP c).
Proof.
  intros Hok Hext0 Hc Hrel. unfold nearestStepM.
  rewrite (bind_ok _ _ _ _ _ (getCustomer_ok _ _ _ Hc)). unfold nearestStep.
  destruct (coords c) as [[la lo]|];
    [|exists sM, h; repeat split; auto using Extends_refl; apply Hrel].
  destruct (isDelivered c);
    [exists sM, h; repeat split; auto using Extends_refl; apply Hrel|].
  rewrite (proj1 Hrel).
  destruct (dist (loc_latitude l) (loc_longitude l) la lo) as [d|];
    [|exists sM, h; repeat split; auto using Extends_refl; apply Hrel].
  destruct (match snd sP with
            | Some m => (d <? m)%Z
            | None => true end).
  - destruct (alloc_ok (ONearest (mkNearest c d)) h Hok) as (Hal & Hok1 & Hext1 & Hm1).
    rewrite (bind_ok _ _ _ _ _ Hal). eexists _, _.
    split; [reflexivity|]. split; [exact Hok1|]. split; [exact Hext1|].
    split; [reflexivity|]. simpl. split; [apply Hext0|].
    unfold read_nearest. now rewrite Hm1.
  - exists sM, h. repeat split; auto using Extends_refl; apply Hrel.
Qed.

Lemma foldM_nearest_ok l h0 ls : forall h cs sM sP,
  heap_ok h -> Extends h0 h -> traverse (read_customer h) ls = Some cs ->
  NearRel h0 h sM sP ->
  exists sM' h', foldM (nearestStepM dist l) sM ls h = Some (sM', h') /\
    heap_ok h' /\ Extends h h' /\
    NearRel h0 h' sM' (fold_left (nearestStep dist l) cs sP).
Proof.
  induction ls as [|cl ls IH]; intros h cs sM sP Hok Hext0 Hls Hrel; simpl in Hls.
  - injection Hls as <-. exists sM, h. repeat split; auto using Extends_refl; apply Hrel.
  - destruct (read_customer h cl) as [c|] eqn:Hc,
             (traverse (read_customer h) ls) as [cs'|] eqn:Hcs; try discriminate.
    injection Hls as <-.
    destruct (nearestStepM_ok l h0 h cl c sM sP Hok Hext0 Hc Hrel)
      as (sM1 & h1 & Hst & Hok1 & Hext1 & Hrel1).
    pose proof (traverse_extends _ read_customer_extends _ _ _ _ Hok Hext1 Hcs) as Hcs1.
    destruct (IH h1 cs' sM1 _ Hok1 (Extends_trans _ _ _ Hext0 Hext1) Hcs1 Hrel1)
      as (sM2 & h2 & Hf & Hok2 & Hext2 & Hrel2).
    exists sM2, h2. cbn [foldM]. rewrite (bind_ok _ _ _ _ _ Hst).
    split; [exact Hf|]. split; [exact Hok2|]. split; [eapply Extends_trans; eauto|].
    exact Hrel2.
Qed.
End Screen.

(** C8: run on a heap whose array [customers] holds the customer
    objects [cs], [sortedCustomers] and [getNearestCustomerInfo] leave
    every object that existed before the call unchanged (the input array
    and each customer object among them). The ranking returns a new
    array of new entry objects, and what it holds is the pure
    [sortedCustomers] of [cs], the device position and the query. The
    nearest pick is a new object holding the pure
    [getNearestCustomerInfo] of [cs] and the device position. Neither
    result depends on any other part of the heap. *)
Theorem ranking_leaves_input_unchanged
    (calculateDistance : Q -> Q -> Q -> Q -> jsint) (currentLocation : option Location)
    (searchQuery : string) (h : heap) (customers : loc) (cs : list Customer)
    (Hok : heap_ok h) (Hcs : array_of read_customer h customers = Some cs) :
  (exists out h', sortedCustomersM calculateDistance currentLocation searchQuery customers h
                  = Some (out, h') /\
     (forall l, l < next h -> mem h' l = mem h l) /\
     next h <= out /\
     (exists ls, read_array h' out = Some ls /\ Forall (fun l => next h <= l) ls) /\
     array_of read_ranked h' out
       = Some (sortedCustomers calculateDistance currentLocation cs searchQuery)) /\
  (exists res h', getNearestCustomerInfoM calculateDistance currentLocation customers h
                  = Some (res, h') /\
     (forall l, l < next h -> mem h' l = mem h l) /\
     match res, getNearestCustomerInfo calculateDistance currentLocation cs with
     | None, None => True
     | Some x, Some n => next h <= x /\ read_nearest h' x = Some n
     | _, _ => False
     end).
Proof.
  split.
  - destruct (filterCustomers_ok searchQuery h customers cs Hok Hcs)
      as (f & h1 & Hf & Hok1 & Hext1 & Hfresh1 & Hcs1).
    destruct (mapWithDistance_ok calculateDistance currentLocation h1 f _ Hok1 Hcs1)
      as (m & h2 & rs & Hm & Hok2 & Hext2 & Hfresh2 & Ha2 & Ht2 & Hrs).
    destruct (sortInPlace_ok h2 m rs _ Hok2 Ha2 Ht2)
      as (h3 & ls & Hs & Hok3 & Hn3 & Hmem3 & Ha3 & Hperm & Ht3).
    assert (Hle : next h <= m) by (eapply Nat.le_trans; [apply Hext1|exact Hfresh2]).
    exists m, h3. split.
    { unfold sortedCustomersM.
      rewrite (bind_ok _ _ _ _ _ Hf), (bind_ok _ _ _ _ _ Hm). exact Hs. }
    split.
    { intros l Hl. rewrite Hmem3.
      - apply (Extends_trans _ _ _ Hext1 Hext2). exact Hl.
      - intros ->. apply (Nat.lt_irrefl m). eapply Nat.lt_le_trans; eauto. }
    split; [exact Hle|]. split.
    { exists ls. split; [exact Ha3|].
      eapply Permutation_Forall; [symmetry; exact Hperm|].
      eapply Forall_impl; [|exact Hrs]. intros r Hr.
      eapply Nat.le_trans; [apply Hext1|exact Hr]. }
    unfold array_of. rewrite Ha3, Ht3. reflexivity.
  - unfold getNearestCustomerInfoM, getNearestCustomerInfo.
    destruct currentLocation as [l|].
    + unfold array_of in Hcs. destruct (read_array h customers) as [ls|] eqn:Ha;
        [|discriminate].
      destruct (foldM_nearest_ok calculateDistance l h ls h cs (None, None) (None, None)
                  Hok (Extends_refl h) Hcs (conj eq_refl I))
        as (sM & h' & Hf & Hok' & Hext' & [_ Hrel]).
      exists (fst sM), h'.
      rewrite (bind_ok _ _ _ _ _ (getArray_ok _ _ _ Ha)), (bind_ok _ _ _ _ _ Hf).
      split; [reflexivity|]. split; [apply Hext'|exact Hrel].
    + exists None, h. split; [reflexivity|]. split; [reflexivity|exact I].
Qed.
End HeapFacts.

(** * Witnesses: the hypotheses of the theorems hold on concrete inputs *)

Lemma getNearest_none_witness :
  (Some deviceAtOrigin = None \/
   Forall (fun c => isDelivered c = true \/ latitude c = None \/ longitude c = None)
          [customerC]) /\
  getNearestCustomerInfo sampleDistance (Some deviceAtOrigin) [customerC] = None.
Proof.
  assert (H : Some deviceAtOrigin = None \/
              Forall (fun c => isDelivered c = true \/ latitude c = None \/ longitude c = None)
                     [customerC])
    by (right; constructor; [left; reflexivity|constructor]).
  split; [exact H|exact (getNearest_none sampleDistance (Some deviceAtOrigin) [customerC] H)].
Defined.

Lemma sortedCustomers_query_witness :
  In customerB [customerA; customerB] /\ isDelivered customerB = false /\
  In customerB (map entry (sortedCustomers sampleDistance None [customerA; customerB] " b ")).
Proof.
  split; [simpl; auto|]. split; [reflexivity|].
  destruct (sortedCustomers_query sampleDistance None [customerA; customerB] " b " customerB
              ltac:(simpl; auto) eq_refl) as [Hq _].
  apply Hq; [discriminate|]. left. reflexivity.
Defined.

Lemma zero_coordinate_is_no_position_witness :
  (exists x, (latitude customerA = Some x \/ longitude customerA = Some x) /\ (x == 0)%Q) /\
  getNearestCustomerInfo sampleDistance (Some deviceAtOrigin) [customerA; customerB] =
  getNearestCustomerInfo sampleDistance (Some deviceAtOrigin) [customerB].
Proof.
  assert (H : exists x, (latitude customerA = Some x \/ longitude customerA = Some x) /\
                        (x == 0)%Q)
    by (exists 0%Q; split; [left; reflexivity|reflexivity]).
  split; [exact H|].
  exact (proj2 (zero_coordinate_is_no_position sampleDistance deviceAtOrigin
                  [customerA; customerB] "" customerA H) [] [customerB]).
Defined.

Lemma ranking_leaves_input_unchanged_witness :
  Heap.heap_ok sampleHeap /\
  Heap.array_of Heap.read_customer sampleHeap 0%nat = Some [customerA; customerB] /\
  exists out h',
    Heap.sortedCustomersM sampleDistance (Some deviceAtOrigin) "" 0%nat sampleHeap
      = Some (out, h') /\
    Heap.mem h' 0%nat = Heap.mem sampleHeap 0%nat /\
    Heap.array_of Heap.read_ranked h' out
      = Some (sortedCustomers sampleDistance (Some deviceAtOrigin) [customerA; customerB] "").
Proof.
  assert (Hok : Heap.heap_ok sampleHeap).
  { intros l Hl. cbn in Hl. destruct l as [|[|[|l]]]; [lia|lia|lia|reflexivity]. }
  assert (Hcs : Heap.array_of Heap.read_customer sampleHeap 0%nat = Some [customerA; customerB])
    by reflexivity.
  split; [exact Hok|]. split; [exact Hcs|].
  destruct (HeapFacts.ranking_leaves_input_unchanged sampleDistance (Some deviceAtOrigin) ""
              sampleHeap 0%nat [customerA; customerB] Hok Hcs)
    as [(out & h' & Hrun & Hmem & _ & _ & Hout) _].
  exists out, h'. split; [exact Hrun|]. split; [|exact Hout].
  apply Hmem. apply Nat.lt_0_succ.
Defined.

(** * The rest of the screens *)

(** ** The nearest-customer card and the list *)

Lemma isDelivered_spec c :
  isDelivered c = String.eqb (toLowerCase (status c)) "delivered".
Proof. reflexivity. Qed.

Lemma coords_some c la lo :
  coords c = Some (la, lo) ->
  latitude c = Some la /\ longitude c = Some lo /\ truthy la = true /\ truthy lo = true.
Proof.
  unfold coords. destruct (latitude c) as [a|], (longitude c) as [b|]; try discriminate.
  destruct (truthy a) eqn:Ha, (truthy b) eqn:Hb; simpl; try discriminate.
  intros [= -> ->]. auto.
Qed.

Lemma cardCandidate_eligible dist l c :
  Home.cardCandidate c = true <-> eligibleDistance dist l c <> None.
Proof.
  unfold Home.cardCandidate, eligibleDistance, coords, Home.optTruthy.
  destruct (latitude c) as [la|], (longitude c) as [lo|]; simpl;
    try destruct (truthy la); try destruct (truthy lo); simpl;
    try (split; [discriminate|intros H; exfalso; apply H; reflexivity]).
  unfold isDelivered. destruct (String.eqb (status c) "") eqn:Hs.
  - apply String.eqb_eq in Hs. rewrite Hs. simpl. split; [discriminate|reflexivity].
  - simpl. destruct (String.eqb (toLowerCase (status c)) "delivered"); simpl;
      split; intros H; first [reflexivity | discriminate | (exfalso; apply H; reflexivity)].
Qed.

Lemma hasCoordinates_coords c :
  Home.hasCoordinates c = match coords c with Some _ => true | None => false end.
Proof.
  unfold Home.hasCoordinates, Home.optTruthy, coords.
  destruct (latitude c) as [la|], (longitude c) as [lo|]; simpl;
    try destruct (truthy la); try destruct (truthy lo); reflexivity.
Qed.

Lemma openDirections_coords ns l c :
  match coords c with
  | None => Home.openDirectionsInApp ns (Some l) c =
            Home.ShowAlert "Invalid Location"
              "This customer doesn't have valid location coordinates."
  | Some _ => exists url, Home.openDirectionsInApp ns (Some l) c = Home.ShowMaps c url
  end.
Proof.
  unfold coords, Home.openDirectionsInApp.
  destruct (latitude c) as [la|], (longitude c) as [lo|]; try reflexivity.
  destruct (truthy la), (truthy lo); simpl; eauto.
Qed.

Lemma filter_nil_iff {A} (f : A -> bool) (l : list A) :
  filter f l = [] <-> Forall (fun x => f x = false) l.
Proof.
  induction l as [|x l IH]; simpl; [split; auto|].
  destruct (f x) eqn:Hx; split; intros H.
  - discriminate.
  - inversion H; congruence.
  - constructor; [exact Hx|apply IH, H].
  - apply IH. inversion H; assumption.
Qed.

Lemma filteredCustomers_blank cs q :
  trim q = "" -> filteredCustomers cs q = filter (fun c => negb (isDelivered c)) cs.
Proof.
  intros Hq. unfold filteredCustomers, keepCustomer. rewrite Hq. simpl.
  apply filter_ext. intros c. destruct (isDelivered c); reflexivity.
Qed.

Lemma sortedCustomers_length dist loc cs q :
  List.length (sortedCustomers dist loc cs q) = List.length (filteredCustomers cs q).
Proof.
  unfold sortedCustomers. rewrite (Permutation_length (isort_perm _ _)).
  unfold customersWithDistance. apply length_map.
Qed.

Lemma isort_no_distance (l : list Ranked) :
  Forall (fun r => distance r = None) l -> isort (sortCompare compareRanked) l = l.
Proof.
  induction 1 as [|x l Hx Hl IH]; simpl; [reflexivity|]. rewrite IH.
  destruct l as [|y l]; simpl; [reflexivity|].
  inversion Hl as [|? ? Hy _]. unfold sortCompare, compareRanked. rewrite Hx, Hy. reflexivity.
Qed.

(** X1: once the device position is known, the nearest-customer card is
    shown exactly when loading is over, no error is set and some loaded
    customer passes the skip tests of [getNearestCustomerInfo] (truthy
    coordinates, not delivered); [getNearestCustomerInfo] finds a
    customer exactly when one of those customers is at a distance that is
    not NaN (otherwise the card shows its empty text). *)
Theorem nearest_card_iff_nearest (calculateDistance : Q -> Q -> Q -> Q -> jsint)
    (l : Location) (st : Home.State) :
  (Home.showNearestCard st = true <->
   Home.loading st = false /\ (Home.error st = None \/ Home.error st = Some "") /\
   exists c, In c (Home.customers st) /\ eligibleDistance calculateDistance l c <> None) /\
  (getNearestCustomerInfo calculateDistance (Some l) (Home.customers st) <> None <->
   exists c, In c (Home.customers st) /\
     exists e, eligibleDistance calculateDistance l c = Some (JsInt e)).
Proof.
  split.
  - unfold Home.showNearestCard. rewrite !andb_true_iff, negb_true_iff.
    assert (Herr : (match Home.error st with None => true | Some e => String.eqb e "" end = true)
                   <-> (Home.error st = None \/ Home.error st = Some "")).
    { destruct (Home.error st) as [e|]; split; intros H.
      - right. apply String.eqb_eq in H. now subst.
      - destruct H as [H|H]; [discriminate|]. injection H as ->. reflexivity.
      - left; reflexivity.
      - reflexivity. }
    assert (Hn : existsb Home.cardCandidate (Home.customers st) = true <->
                 exists c, In c (Home.customers st) /\
                   eligibleDistance calculateDistance l c <> None).
    { rewrite existsb_exists. split; intros (c & Hc & H); exists c; split; auto;
        apply (cardCandidate_eligible calculateDistance l c), H. }
    rewrite Herr, Hn. tauto.
  - split.
    + intros Hne. destruct (getNearestCustomerInfo calculateDistance (Some l) (Home.customers st))
        as [n|] eqn:Hn; [|congruence].
      destruct (proj1 (getNearest_first_minimal calculateDistance l _) n Hn)
        as (pre & post & Hcs & He & _ & _).
      exists (near n). split; [rewrite Hcs; apply in_or_app; right; left; reflexivity|].
      eauto.
    + apply (proj2 (getNearest_first_minimal calculateDistance l _)).
Qed.

(** X2: the customer shown on the nearest-customer card is one of the
    loaded customers, is not delivered (so the card always offers "Mark
    Delivered" and never colours the status green), has truthy
    coordinates, shows the distance computed from them, and tapping the
    card opens the directions for it rather than an alert. *)
Theorem nearest_customer_card (calculateDistance : Q -> Q -> Q -> Q -> jsint)
    (numberToString : Q -> string) (l : Location) (customers : list Customer) (n : Nearest)
    (Hn : getNearestCustomerInfo calculateDistance (Some l) customers = Some n) :
  In (near n) customers /\
  Home.showMarkDelivered (near n) = true /\
  Home.statusColor (status (near n)) <> "#4CAF50" /\
  exists la lo, coords (near n) = Some (la, lo) /\
    calculateDistance (loc_latitude l) (loc_longitude l) la lo = JsInt (near_distance n) /\
    exists url, Home.openDirectionsInApp numberToString (Some l) (near n) = Home.ShowMaps (near n) url.
Proof.
  destruct (proj1 (getNearest_first_minimal calculateDistance l customers) n Hn)
    as (pre & post & Hcs & He & _ & _).
  unfold eligibleDistance in He.
  destruct (coords (near n)) as [[la lo]|] eqn:Hc; [|discriminate].
  destruct (isDelivered (near n)) eqn:Hd; [discriminate|]. injection He as He.
  pose proof (openDirections_coords numberToString l (near n)) as Ho. rewrite Hc in Ho.
  split; [rewrite Hcs; apply in_or_app; right; left; reflexivity|].
  split; [unfold Home.showMarkDelivered; rewrite <- isDelivered_spec, Hd; reflexivity|].
  split.
  - unfold Home.statusColor. rewrite isDelivered_spec in Hd. cbv zeta. rewrite Hd.
    destruct (String.eqb (toLowerCase (status (near n))) "cancelled"); discriminate.
  - exists la, lo. auto.
Qed.

(** X3: with the device position known, an entry of the customer list has
    no distance exactly when its [hasCoordinates] is falsy; tapping such
    an entry shows the "Invalid Location" alert, while tapping an entry
    with a distance opens the directions for it, the distance being the
    one computed from its coordinates. *)
Theorem list_entry_tap (calculateDistance : Q -> Q -> Q -> Q -> jsint)
    (numberToString : Q -> string) (l : Location) (customers : list Customer)
    (searchQuery : string) (r : Ranked)
    (Hr : In r (sortedCustomers calculateDistance (Some l) customers searchQuery)) :
  (distance r = None <-> Home.hasCoordinates (entry r) = false) /\
  match distance r with
  | None => Home.openDirectionsInApp numberToString (Some l) (entry r) =
            Home.ShowAlert "Invalid Location"
              "This customer doesn't have valid location coordinates."
  | Some d => exists la lo, coords (entry r) = Some (la, lo) /\
      d = calculateDistance (loc_latitude l) (loc_longitude l) la lo /\
      exists url, Home.openDirectionsInApp numberToString (Some l) (entry r) =
                  Home.ShowMaps (entry r) url
  end.
Proof.
  apply In_sortedCustomers in Hr as (c & -> & _ & _).
  rewrite entry_withDistance, hasCoordinates_coords.
  pose proof (openDirections_coords numberToString l c) as Ho.
  unfold withDistance. destruct (coords c) as [[la lo]|] eqn:Hc; simpl.
  - split; [split; discriminate|]. exists la, lo. auto.
  - split; [split; reflexivity|exact Ho].
Qed.

(** X4: without a device position no entry of the list gets a distance,
    the list keeps the order of the loaded customers, and tapping any
    entry shows the "Location required" alert. *)
Theorem list_without_position (calculateDistance : Q -> Q -> Q -> Q -> jsint)
    (numberToString : Q -> string) (customers : list Customer) (searchQuery : string) :
  sortedCustomers calculateDistance None customers searchQuery =
    map (fun c => mkRanked c None) (filteredCustomers customers searchQuery) /\
  Forall (fun r => Home.openDirectionsInApp numberToString None (entry r) =
                   Home.ShowAlert "Location required"
                     "Current location is required to open directions. Please enable location and try again.")
         (sortedCustomers calculateDistance None customers searchQuery).
Proof.
  assert (Hs : sortedCustomers calculateDistance None customers searchQuery =
               map (fun c => mkRanked c None) (filteredCustomers customers searchQuery)).
  { unfold sortedCustomers, customersWithDistance. rewrite isort_no_distance.
    - apply map_ext. intros c. reflexivity.
    - apply Forall_forall. intros r Hr. apply in_map_iff in Hr as (c & <- & _). reflexivity. }
  split; [exact Hs|]. apply Forall_forall. intros r _. reflexivity.
Qed.

(** X5: the count "All Customers (n)" is the number of loaded customers
    that pass the filter, at most the number loaded; with a blank search
    query it is the number of customers that are not delivered. *)
Theorem list_count (calculateDistance : Q -> Q -> Q -> Q -> jsint)
    (currentLocation : option Location) (customers : list Customer) (searchQuery : string) :
  List.length (sortedCustomers calculateDistance currentLocation customers searchQuery) =
    List.length (filteredCustomers customers searchQuery) /\
  (List.length (filteredCustomers customers searchQuery) <= List.length customers)%nat /\
  (trim searchQuery = "" ->
   List.length (sortedCustomers calculateDistance currentLocation customers searchQuery) =
   List.length (filter (fun c => negb (isDelivered c)) customers)).
Proof.
  rewrite sortedCustomers_length. split; [reflexivity|]. split.
  - apply filter_length_le.
  - intros Hq. now rewrite filteredCustomers_blank.
Qed.

Lemma keepCustomer_false q c :
  keepCustomer q c = false <->
  isDelivered c = true \/
  (toLowerCase (trim q) <> "" /\ matchesQuery (toLowerCase (trim q)) c = false).
Proof.
  unfold keepCustomer. destruct (isDelivered c); [tauto|].
  destruct (String.eqb (toLowerCase (trim q)) "") eqn:E.
  - apply String.eqb_eq in E. split; [discriminate|]. intros [H|[H _]]; congruence.
  - apply String.eqb_neq in E. split; [intros H; right; auto|].
    intros [H|[_ H]]; [discriminate|exact H].
Qed.

(** X6: the empty-list text appears exactly when no loaded customer passes
    the filter, that is when every customer is delivered or, the trimmed
    query being non-empty, does not match it. It reads "No customers
    found matching your search" whenever the raw search text is non-empty,
    even only spaces that filter nothing, and "No customers available"
    otherwise; with a blank query it appears exactly when every customer
    is delivered. *)
Theorem list_placeholder (calculateDistance : Q -> Q -> Q -> Q -> jsint)
    (currentLocation : option Location) (customers : list Customer) (searchQuery : string) :
  let shown := Home.listPlaceholder
                 (sortedCustomers calculateDistance currentLocation customers searchQuery)
                 searchQuery in
  (shown <> None <->
   Forall (fun c => isDelivered c = true \/
                    (toLowerCase (trim searchQuery) <> "" /\
                     matchesQuery (toLowerCase (trim searchQuery)) c = false)) customers) /\
  (forall t, shown = Some t ->
     t = if String.eqb searchQuery "" then "No customers available"
         else "No customers found matching your search") /\
  (trim searchQuery = "" ->
   (shown <> None <-> Forall (fun c => isDelivered c = true) customers)).
Proof.
  intros shown.
  assert (Hnil : forall l q, Home.listPlaceholder l q <> None <-> l = []).
  { intros [|x l] q; simpl; split; congruence. }
  assert (Hsorted : sortedCustomers calculateDistance currentLocation customers searchQuery = []
                    <-> filteredCustomers customers searchQuery = []).
  { rewrite <- !length_zero_iff_nil, sortedCustomers_length. reflexivity. }
  split; [|split].
  - unfold shown. rewrite Hnil, Hsorted. unfold filteredCustomers. rewrite filter_nil_iff.
    split; apply Forall_impl; intros c; apply keepCustomer_false.
  - unfold shown. intros t.
    destruct (sortedCustomers calculateDistance currentLocation customers searchQuery);
      simpl; [|discriminate].
    intros H. injection H as <-. reflexivity.
  - intros Hq. unfold shown. rewrite Hnil, Hsorted, filteredCustomers_blank by exact Hq.
    rewrite filter_nil_iff. split; apply Forall_impl; intros c;
      destruct (isDelivered c); simpl; congruence.
Qed.

(** ** Loading the customers and marking a delivery *)

Lemma fallback_nonempty (d m : string) :
  d <> "" -> (if String.eqb m "" then d else m) <> "".
Proof.
  intros Hd. destruct (String.eqb m "") eqn:E; [exact Hd|].
  apply String.eqb_neq, E.
Qed.

Ltac load_failure :=
  simpl; split; [reflexivity|]; split; [reflexivity|]; right;
  split; [reflexivity|];
  split; [eexists; split; [reflexivity|];
          first [apply fallback_nonempty; discriminate | discriminate]
         |reflexivity].

Lemma loadCustomers_cases jp asCustomers nullReadMessage st reply :
  let r := Home.loadCustomers jp asCustomers nullReadMessage st reply in
  Home.loading (fst r) = false /\ Home.refreshing (fst r) = false /\
  ((Home.error (fst r) = None /\ snd r = [] /\
    exists v s xs, Api.getCustomers jp reply = Api.Returned v /\
      get v "success" = Some s /\ truthy_prop s = true /\
      get v "customers" = Some (Some (JArr xs)) /\
      Home.customers (fst r) = asCustomers xs) \/
   (Home.customers (fst r) = Home.customers st /\
    (exists e, Home.error (fst r) = Some e /\ e <> "") /\
    snd r = [("Error", "Failed to load customers from server")])).
Proof.
  unfold Home.loadCustomers. cbv zeta.
  destruct (Api.getCustomers jp reply) as [v|m] eqn:Hg; [|load_failure].
  destruct (get v "success") as [s|] eqn:Hs; [|load_failure].
  destruct (truthy_prop s) eqn:Ht; [|load_failure].
  destruct (get v "customers") as [[[| | | |xs|]|]|] eqn:Hc; try load_failure.
  simpl. split; [reflexivity|]. split; [reflexivity|]. left.
  split; [reflexivity|]. split; [reflexivity|]. exists v, s, xs. auto.
Qed.

(** X7: [loadCustomers] always ends with [loading] and [refreshing]
    false. It replaces the list and clears the error only when
    [getCustomers()] returns an object whose [success] is truthy and whose
    [customers] is an array; in every other case it keeps the previous
    list, sets a non-empty error and shows the alert "Failed to load
    customers from server". *)
Theorem loadCustomers_outcome (JSON_parse : string -> parsed)
    (asCustomers : list json -> list Customer) (nullReadMessage : string)
    (st : Home.State) (reply : Api.fetched) :
  let r := Home.loadCustomers JSON_parse asCustomers nullReadMessage st reply in
  Home.loading (fst r) = false /\ Home.refreshing (fst r) = false /\
  ((Home.error (fst r) = None /\ snd r = [] /\
    exists v s xs, Api.getCustomers JSON_parse reply = Api.Returned v /\
      get v "success" = Some s /\ truthy_prop s = true /\
      get v "customers" = Some (Some (JArr xs)) /\
      Home.customers (fst r) = asCustomers xs) \/
   (Home.customers (fst r) = Home.customers st /\
    (exists e, Home.error (fst r) = Some e /\ e <> "") /\
    snd r = [("Error", "Failed to load customers from server")])).
Proof. exact (loadCustomers_cases JSON_parse asCustomers nullReadMessage st reply). Qed.

(** X8: the error text set by [loadCustomers], for every reply: for an
    HTTP error it is the raw body, JSON or not, or "Failed to fetch
    customers: <status>" when the body is empty; for a network failure or
    a body that does not parse it is the error's message; for a body
    [null] it is the message of the [TypeError] thrown by reading
    [response.success]; for any other value that is not an object it is
    "Invalid response format from server"; and for an object it is that
    text unless [success] is truthy and [customers] is an array, in which
    case no error is set (a [success] of "false", a non-empty string,
    counts as success). An empty message is replaced by "Failed to load
    customers". *)
Theorem loadCustomers_error_text (JSON_parse : string -> parsed)
    (asCustomers : list json -> list Customer) (nullReadMessage : string)
    (st : Home.State) :
  let err reply := Home.error (fst (Home.loadCustomers JSON_parse asCustomers
                                                         nullReadMessage st reply)) in
  let orDefault m := if String.eqb m "" then "Failed to load customers" else m in
  (forall code, err (Api.Resolved (Api.mkResponse false code "")) =
                Some ("Failed to fetch customers: " ++ Z_to_string code)%string) /\
  (forall code body, body <> "" ->
     err (Api.Resolved (Api.mkResponse false code body)) = Some body) /\
  (forall m, err (Api.Rejected m) = Some (orDefault m)) /\
  (forall code body m, JSON_parse body = ParseError m ->
     err (Api.Resolved (Api.mkResponse true code body)) = Some (orDefault m)) /\
  (forall code body, JSON_parse body = ParseOk JNull ->
     err (Api.Resolved (Api.mkResponse true code body)) = Some (orDefault nullReadMessage)) /\
  (forall code body v, JSON_parse body = ParseOk v -> v <> JNull -> (forall fs, v <> JObj fs) ->
     err (Api.Resolved (Api.mkResponse true code body)) =
       Some "Invalid response format from server") /\
  (forall code body fs, JSON_parse body = ParseOk (JObj fs) ->
     err (Api.Resolved (Api.mkResponse true code body)) =
       if truthy_prop (field "success" fs) &&
          match field "customers" fs with Some (JArr _) => true | _ => false end
       then None else Some "Invalid response format from server").
Proof.
  cbv zeta. unfold Home.loadCustomers, Api.getCustomers, Api.request. cbv zeta. simpl.
  split; [reflexivity|]. split.
  { intros code body Hb. apply String.eqb_neq in Hb. now rewrite Hb, Hb. }
  split; [reflexivity|].
  split.
  { intros code body m Hp. rewrite Hp. reflexivity. }
  split.
  { intros code body Hp. rewrite Hp. reflexivity. }
  split.
  { intros code body v Hp Hn Ho. rewrite Hp.
    destruct v as [| | | | |fs]; simpl; [congruence|reflexivity..|].
    exfalso. exact (Ho fs eq_refl). }
  intros code body fs Hp. rewrite Hp. simpl.
  destruct (truthy_prop (field "success" fs)); simpl; [|reflexivity].
  destruct (field "customers" fs) as [[| | | |xs|]|]; reflexivity.
Qed.

(** X9: after a successful status update [handleMarkDelivered] always
    ends with the alert "Order marked as delivered", even when the reload
    fails, in which case the load-failure alert comes first and the list
    is the one from before; a failed update leaves the state as it was
    and shows its error message, or "Failed to update status" when the
    message is empty. *)
Theorem markDelivered_alerts (JSON_parse : string -> parsed)
    (asCustomers : list json -> list Customer) (nullReadMessage : string)
    (st : Home.State) (update reload : Api.fetched) :
  let r := Home.handleMarkDelivered JSON_parse asCustomers nullReadMessage st update reload in
  match Api.updateCustomerStatus JSON_parse update with
  | Api.Thrown m =>
      fst r = st /\
      snd r = [("Error", if String.eqb m "" then "Failed to update status" else m)]
  | Api.Returned _ =>
      (Home.error (fst r) = None /\ snd r = [("Success", "Order marked as delivered")]) \/
      (Home.customers (fst r) = Home.customers st /\ Home.error (fst r) <> None /\
       snd r = [("Error", "Failed to load customers from server");
                ("Success", "Order marked as delivered")])
  end.
Proof.
  cbv zeta. unfold Home.handleMarkDelivered.
  destruct (Api.updateCustomerStatus JSON_parse update) as [v|m]; [|split; reflexivity].
  pose proof (loadCustomers_cases JSON_parse asCustomers nullReadMessage st reload) as H.
  cbv zeta in H.
  destruct (Home.loadCustomers JSON_parse asCustomers nullReadMessage st reload)
    as [st' alerts]. simpl in *.
  destruct H as (_ & _ & [(He & -> & _)|(Hc & (e & He & _) & ->)]).
  - left. auto.
  - right. split; [exact Hc|]. split; [congruence|reflexivity].
Qed.
(** ** Adding a customer *)

Section AddCustomerFacts.
Import AddCustomer.

Lemma readCoordinate_accepts parseFloat input (b : Q) :
  (exists o, readCoordinate parseFloat input b = Some o) <->
  trim input = "" \/ exists q, parseFloat input = Finite q /\ (- b <= q <= b)%Q.
Proof.
  unfold readCoordinate. destruct (String.eqb (trim input) "") eqn:E.
  - apply String.eqb_eq in E. split; [left; exact E|eauto].
  - apply String.eqb_neq in E.
    destruct (parseFloat input) as [| | |q]; simpl.
    + split; [intros (o & [=])|intros [H|(q & [=] & _)]; contradiction].
    + split; [intros (o & [=])|intros [H|(q & [=] & _)]; contradiction].
    + split; [intros (o & [=])|intros [H|(q & [=] & _)]; contradiction].
    + destruct (Qle_bool (- b) q) eqn:H1, (Qle_bool q b) eqn:H2; simpl.
      * apply Qle_bool_iff in H1, H2. split; [eauto|eauto].
      * split; [intros (o & [=])|]. intros [H|(q' & [= <-] & _ & Hq)]; [contradiction|].
        apply Qle_bool_iff in Hq. congruence.
      * split; [intros (o & [=])|]. intros [H|(q' & [= <-] & Hq & _)]; [contradiction|].
        apply Qle_bool_iff in Hq. congruence.
      * split; [intros (o & [=])|]. intros [H|(q' & [= <-] & Hq & _)]; [contradiction|].
        apply Qle_bool_iff in Hq. congruence.
Qed.

Lemma readCoordinate_value parseFloat input (b : Q) o :
  readCoordinate parseFloat input b = Some o ->
  (o = None <-> trim input = "") /\
  (forall x, o = Some x -> x = parseFloat input /\
     exists q, x = Finite q /\ (- b <= q <= b)%Q).
Proof.
  unfold readCoordinate. destruct (String.eqb (trim input) "") eqn:E.
  - intros [= <-]. apply String.eqb_eq in E. split; [tauto|discriminate].
  - apply String.eqb_neq in E.
    destruct (parseFloat input) as [| | |q] eqn:Hp; simpl; try discriminate.
    destruct (Qle_bool (- b) q) eqn:H1, (Qle_bool q b) eqn:H2; simpl; try discriminate.
    intros [= <-]. apply Qle_bool_iff in H1, H2. split; [split; [discriminate|contradiction]|].
    intros x [= <-]. split; [reflexivity|]. exists q. auto.
Qed.

(** X11: [handleSubmit] checks the name first, then the address, then the
    latitude, then the longitude; it goes on to the request exactly when
    the trimmed name and address are not empty and each coordinate field
    is blank or parses to a finite number within [-90, 90] for the
    latitude and [-180, 180] for the longitude. *)
Theorem buildPayload_accepts (parseFloat : string -> number) (formData : CustomerForm) :
  (trim (name formData) = "" ->
   buildPayload parseFloat formData = Invalid "Please provide customer name") /\
  (trim (name formData) <> "" -> trim (address formData) = "" ->
   buildPayload parseFloat formData = Invalid "Please provide address") /\
  ((exists payload, buildPayload parseFloat formData = Valid payload) <->
   trim (name formData) <> "" /\ trim (address formData) <> "" /\
   (trim (latitude formData) = "" \/
    exists q, parseFloat (latitude formData) = Finite q /\ (-90 <= q <= 90)%Q) /\
   (trim (longitude formData) = "" \/
    exists q, parseFloat (longitude formData) = Finite q /\ (-180 <= q <= 180)%Q)).
Proof.
  unfold buildPayload.
  split; [intros H; now rewrite H|].
  split.
  { intros Hn Ha. apply String.eqb_neq in Hn. now rewrite Hn, Ha. }
  rewrite <- (readCoordinate_accepts parseFloat (latitude formData) 90),
          <- (readCoordinate_accepts parseFloat (longitude formData) 180).
  destruct (String.eqb (trim (name formData)) "") eqn:En.
  { apply String.eqb_eq in En. split; [intros (p & [=])|intros (H & _); contradiction]. }
  destruct (String.eqb (trim (address formData)) "") eqn:Ea.
  { apply String.eqb_eq in Ea. split; [intros (p & [=])|intros (_ & H & _); contradiction]. }
  apply String.eqb_neq in En, Ea.
  destruct (readCoordinate parseFloat (latitude formData) 90) as [lat|] eqn:Hlat;
    [|split; [intros (p & [=])|intros (_ & _ & (o & [=]) & _)]].
  destruct (readCoordinate parseFloat (longitude formData) 180) as [lng|] eqn:Hlng;
    [|split; [intros (p & [=])|intros (_ & _ & _ & (o & [=]))]].
  split; [intros _; eauto 10|eauto].
Qed.

(** X12: a payload sent by [handleSubmit] carries the trimmed name and
    address, both non-empty; [orderDetails] and [deliveryPerson] are left
    out exactly when their trimmed text is empty and are trimmed
    otherwise; a coordinate is present exactly when its field is not
    blank, and is then the [parseFloat] of the field, a finite number
    within the bounds. Each coordinate is decided on its own, so a
    payload may carry a latitude without a longitude. *)
Theorem buildPayload_payload (parseFloat : string -> number) (formData : CustomerForm)
    (payload : CustomerPayload)
    (Hp : buildPayload parseFloat formData = Valid payload) :
  p_name payload = trim (name formData) /\ p_name payload <> "" /\
  p_address payload = trim (address formData) /\ p_address payload <> "" /\
  (p_orderDetails payload = None <-> trim (orderDetails formData) = "") /\
  (forall o, p_orderDetails payload = Some o -> o = trim (orderDetails formData)) /\
  (p_deliveryPerson payload = None <-> trim (deliveryPerson formData) = "") /\
  (forall d, p_deliveryPerson payload = Some d -> d = trim (deliveryPerson formData)) /\
  (p_latitude payload = None <-> trim (latitude formData) = "") /\
  (forall x, p_latitude payload = Some x -> x = parseFloat (latitude formData) /\
     exists q, x = Finite q /\ (-90 <= q <= 90)%Q) /\
  (p_longitude payload = None <-> trim (longitude formData) = "") /\
  (forall x, p_longitude payload = Some x -> x = parseFloat (longitude formData) /\
     exists q, x = Finite q /\ (-180 <= q <= 180)%Q).
Proof.
  assert (Hu : forall s, (orUndefined s = None <-> s = "") /\
                         (forall o, orUndefined s = Some o -> o = s)).
  { intros s. unfold orUndefined. destruct (String.eqb s "") eqn:E.
    - apply String.eqb_eq in E. split; [tauto|discriminate].
    - apply String.eqb_neq in E. split; [split; [discriminate|contradiction]|congruence]. }
  revert Hp. unfold buildPayload.
  destruct (String.eqb (trim (name formData)) "") eqn:En; [discriminate|].
  destruct (String.eqb (trim (address formData)) "") eqn:Ea; [discriminate|].
  apply String.eqb_neq in En, Ea.
  destruct (readCoordinate parseFloat (latitude formData) 90) as [lat|] eqn:Hlat;
    [|discriminate].
  destruct (readCoordinate parseFloat (longitude formData) 180) as [lng|] eqn:Hlng;
    [|discriminate].
  intros [= <-]. simpl.
  destruct (readCoordinate_value _ _ _ _ Hlat) as [Hl1 Hl2].
  destruct (readCoordinate_value _ _ _ _ Hlng) as [Hg1 Hg2].
  destruct (Hu (trim (orderDetails formData))) as [Ho1 Ho2].
  destruct (Hu (trim (deliveryPerson formData))) as [Hd1 Hd2].
  split; [reflexivity|]. split; [exact En|]. split; [reflexivity|]. split; [exact Ea|].
  split; [exact Ho1|]. split; [exact Ho2|]. split; [exact Hd1|]. split; [exact Hd2|].
  split; [exact Hl1|]. split; [exact Hl2|]. split; [exact Hg1|exact Hg2].
Qed.

(** X10: when the request of [handleSubmit] succeeds, it navigates to the
    home screen and leaves "Customer added successfully" in the flash
    slot, replacing any message still there; the next mount of the home
    screen shows that text in its success modal and empties the slot, so
    a later mount shows nothing. *)
Theorem submit_success_flash (parseFloat : string -> number) (JSON_parse : string -> parsed)
    (formData : CustomerForm) (reply : Api.fetched) (s : Flash.slot)
    (payload : CustomerPayload) (v : json)
    (Hp : buildPayload parseFloat formData = Valid payload)
    (Hc : Api.createCustomer JSON_parse reply = Api.Returned v) :
  fst (handleSubmit parseFloat JSON_parse formData reply s) = Navigated "/" /\
  Home.consumeFlashOnMount (snd (handleSubmit parseFloat JSON_parse formData reply s)) =
    (Some "Customer added successfully", None) /\
  Home.consumeFlashOnMount None = (None, None).
Proof.
  unfold handleSubmit. rewrite Hp, Hc. simpl. auto.
Qed.

Lemma includes_head_absent (s : string) (a : ascii) (q : string) :
  Forall (fun c => c <> a) (list_ascii_of_string s) -> includes s (String a q) = false.
Proof.
  induction s as [|c s IH]; simpl; [reflexivity|]. intros H. inversion H as [|? ? Hc Hs].
  destruct (ascii_dec a c) as [->|_]; [contradiction|]. simpl. apply IH, Hs.
Qed.

Lemma includes_empty (q : string) : q <> "" -> includes "" q = false.
Proof. destruct q; [contradiction|reflexivity]. Qed.

Lemma networkCheck_alert (em : json) (k : string) (v : json) :
  networkCheck em = Alerted k v ->
  k = "Error" /\
  (v = JStr networkMessage \/
   (v = em /\ includesPhrase em "Network request failed" = Some false /\
    includesPhrase em "Failed to fetch" = Some false)).
Proof.
  unfold networkCheck.
  destruct (includesPhrase em "Network request failed") as [[]|] eqn:H1;
    [intros [= <- <-]; auto|..|discriminate].
  destruct (includesPhrase em "Failed to fetch") as [[]|] eqn:H2;
    [intros [= <- <-]; auto|intros [= <- <-]; auto|discriminate].
Qed.

Lemma errorMessageOf_truthy JSON_parse (m : string) :
  truthy_json (errorMessageOf JSON_parse m) = true.
Proof.
  unfold errorMessageOf. destruct (String.eqb m "") eqn:E; [reflexivity|].
  assert (Hm : truthy_json (JStr m) = true) by (simpl; now rewrite E).
  destruct (JSON_parse m) as [v|e]; [|exact Hm].
  destruct (get v "error") as [[e|]|]; [|exact Hm|exact Hm].
  simpl. destruct (truthy_json e) eqn:Ht; [exact Ht|exact Hm].
Qed.

(** X13: the message of every "Error" alert of [handleSubmit] is truthy:
    it is the text [errorMessage], or the [error] value of a JSON body,
    which need not be a string (an array, say). When it is a text, it is
    non-empty and mentions neither "Network request failed" nor "Failed
    to fetch" (those are replaced by the network-error text).
    [handleSubmit] navigates exactly when the payload is valid and the
    request succeeds, and in every other case it leaves the flash slot
    untouched. *)
Theorem submit_error_alerts (parseFloat : string -> number) (JSON_parse : string -> parsed)
    (formData : CustomerForm) (reply : Api.fetched) (s : Flash.slot) :
  (forall msg, fst (handleSubmit parseFloat JSON_parse formData reply s) =
               Alerted "Error" msg ->
     truthy_json msg = true /\
     forall t, msg = JStr t ->
       t <> "" /\ includes t "Network request failed" = false /\
       includes t "Failed to fetch" = false) /\
  (fst (handleSubmit parseFloat JSON_parse formData reply s) = Navigated "/" <->
   exists payload v, buildPayload parseFloat formData = Valid payload /\
                     Api.createCustomer JSON_parse reply = Api.Returned v) /\
  (fst (handleSubmit parseFloat JSON_parse formData reply s) <> Navigated "/" ->
   snd (handleSubmit parseFloat JSON_parse formData reply s) = s).
Proof.
  unfold handleSubmit.
  destruct (buildPayload parseFloat formData) as [m|p] eqn:Hp.
  { simpl. split; [intros msg [=]|]. split; [|reflexivity].
    split; [discriminate|intros (p & v & [=] & _)]. }
  destruct (Api.createCustomer JSON_parse reply) as [v|m] eqn:Hc; simpl.
  - split; [intros msg [=]|]. split; [split; eauto|]. intros H. contradiction.
  - split.
    + intros msg H.
      pose proof (errorMessageOf_truthy JSON_parse m) as Ht.
      destruct (networkCheck_alert _ _ _ H) as [_ [->|(-> & H1 & H2)]].
      * split; [reflexivity|]. intros t [= <-].
        split; [discriminate|split; reflexivity].
      * split; [exact Ht|]. intros t Et. rewrite Et in Ht, H1, H2. simpl in Ht, H1, H2.
        injection H1 as H1. injection H2 as H2. split; [|auto].
        intros ->. discriminate.
    + split; [|reflexivity]. split; [|intros (p' & v & _ & [=])].
      unfold reportError. intros H.
      pose proof (errorMessageOf_truthy JSON_parse m) as Ht.
      revert H Ht. unfold networkCheck.
      destruct (errorMessageOf JSON_parse m) as [| b | q | t | xs | fs]; simpl;
        try discriminate.
      * destruct (includes t _); [discriminate|]. destruct (includes t _); discriminate.
      * destruct (existsb _ xs); [discriminate|]. destruct (existsb _ xs); discriminate.
Qed.

End AddCustomerFacts.
Section AddCustomerReplies.
Import AddCustomer.

Lemma pos_digits_chars fuel (n : Z) (acc : string) :
  Forall (fun c => (48 <= nat_of_ascii c <= 57)%nat) (list_ascii_of_string acc) ->
  Forall (fun c => (48 <= nat_of_ascii c <= 57)%nat)
         (list_ascii_of_string (pos_digits fuel n acc)).
Proof.
  revert n acc. induction fuel as [|fuel IH]; intros n acc Hacc; simpl; [exact Hacc|].
  assert (Hd : (48 <= nat_of_ascii (digit (n mod 10)) <= 57)%nat).
  { unfold digit. assert (Hb : (0 <= n mod 10 < 10)%Z) by (apply Z.mod_pos_bound; lia).
    rewrite nat_ascii_embedding; lia. }
  destruct (n <? 10)%Z; [constructor; assumption|].
  apply IH. constructor; assumption.
Qed.

Lemma Z_to_string_chars (z : Z) :
  Forall (fun c => c <> "F"%char /\ c <> "N"%char) (list_ascii_of_string (Z_to_string z)).
Proof.
  assert (Hdig : forall c, (48 <= nat_of_ascii c <= 57)%nat ->
                           c <> "F"%char /\ c <> "N"%char).
  { intros c Hc. split; intros ->.
    - change (nat_of_ascii "F"%char) with 70%nat in Hc. lia.
    - change (nat_of_ascii "N"%char) with 78%nat in Hc. lia. }
  unfold Z_to_string. destruct z as [|p|p].
  - constructor; [|constructor]. apply Hdig.
    change (nat_of_ascii "0"%char) with 48%nat. lia.
  - eapply Forall_impl; [exact Hdig|]. apply pos_digits_chars. constructor.
  - simpl. constructor; [split; discriminate|].
    eapply Forall_impl; [exact Hdig|]. apply pos_digits_chars. constructor.
Qed.

Lemma Z_to_string_phrases (code : Z) :
  includes (Z_to_string code) "Network request failed" = false /\
  includes (Z_to_string code) "Failed to fetch" = false.
Proof.
  pose proof (Z_to_string_chars code) as H.
  split; apply includes_head_absent; eapply Forall_impl; try exact H;
    intros c [Hf Hn]; assumption.
Qed.


End AddCustomerReplies.

(** ** The location line *)

Lemma formatCoordinates_nonempty numberToString (location : option Location) :
  Home.formatCoordinates numberToString location <> "".
Proof.
  unfold Home.formatCoordinates. destruct location as [l|]; [|discriminate].
  destruct (toFixed numberToString 6 (loc_latitude l)); discriminate.
Qed.

(** X15: the "Your Location" line is never blank: it shows the address
    when the address is a non-empty text and the coordinates (or
    "Unknown") otherwise. When the first result of the reverse geocoding
    has no non-empty field, [startLocationTracking] stores the empty
    address "" rather than [null], and the line falls back to the
    coordinates of the position. *)
Theorem location_line_nonblank (numberToString : Q -> string) :
  (forall st, Home.locationLine numberToString st <> "") /\
  (forall st l a rest,
     Home.truthyStrings [Home.g_name a; Home.street a; Home.city a; Home.region a;
                         Home.postalCode a; Home.country a] = [] ->
     let st' := fst (Home.startLocationTracking st
                       (Home.PositionFound l (Home.Geocoded (a :: rest)))) in
     Home.currentAddress st' = Some "" /\
     Home.locationLine numberToString st' = Home.formatCoordinates numberToString (Some l)).
Proof.
  split.
  - intros st. unfold Home.locationLine.
    destruct (Home.currentAddress st) as [a|]; [|apply formatCoordinates_nonempty].
    destruct (String.eqb a "") eqn:E; [apply formatCoordinates_nonempty|].
    apply String.eqb_neq, E.
  - intros st l a rest Hnone. cbv zeta.
    cbn [fst Home.startLocationTracking Home.currentAddressOf]. rewrite Hnone.
    split; reflexivity.
Qed.
(** * Witnesses for the properties of the screens *)

Lemma nearest_customer_card_witness :
  getNearestCustomerInfo sampleDistance (Some deviceAtOrigin) [customerA; customerD] =
    Some (mkNearest customerD 2) /\
  In customerD [customerA; customerD] /\ Home.showMarkDelivered customerD = true.
Proof.
  assert (Hn : getNearestCustomerInfo sampleDistance (Some deviceAtOrigin)
                 [customerA; customerD] = Some (mkNearest customerD 2)) by reflexivity.
  split; [exact Hn|].
  destruct (nearest_customer_card sampleDistance sampleNumberToString deviceAtOrigin
              [customerA; customerD] (mkNearest customerD 2) Hn) as (Hin & Hm & _).
  split; [exact Hin|exact Hm].
Defined.

Lemma list_entry_tap_witness :
  In (mkRanked customerA None)
     (sortedCustomers sampleDistance (Some deviceAtOrigin) [customerA; customerD] "") /\
  Home.openDirectionsInApp sampleNumberToString (Some deviceAtOrigin) customerA =
    Home.ShowAlert "Invalid Location" "This customer doesn't have valid location coordinates.".
Proof.
  assert (Hr : In (mkRanked customerA None)
                 (sortedCustomers sampleDistance (Some deviceAtOrigin) [customerA; customerD] ""))
    by (vm_compute; right; left; reflexivity).
  split; [exact Hr|].
  exact (proj2 (list_entry_tap sampleDistance sampleNumberToString deviceAtOrigin
                  [customerA; customerD] "" (mkRanked customerA None) Hr)).
Defined.

Lemma submit_success_flash_witness :
  AddCustomer.buildPayload sampleParseFloat sampleForm =
    AddCustomer.Valid (AddCustomer.mkPayload "Ann" "12 Main Street"
                         (Some (AddCustomer.Finite (69 # 10))) None None (Some "Bob")) /\
  Api.createCustomer sampleJSONParse (Api.Resolved (Api.mkResponse true 201 "{}")) =
    Api.Returned (JObj []) /\
  fst (AddCustomer.handleSubmit sampleParseFloat sampleJSONParse sampleForm
         (Api.Resolved (Api.mkResponse true 201 "{}")) None) = AddCustomer.Navigated "/".
Proof.
  assert (Hp : AddCustomer.buildPayload sampleParseFloat sampleForm =
                 AddCustomer.Valid (AddCustomer.mkPayload "Ann" "12 Main Street"
                   (Some (AddCustomer.Finite (69 # 10))) None None (Some "Bob")))
    by reflexivity.
  assert (Hc : Api.createCustomer sampleJSONParse (Api.Resolved (Api.mkResponse true 201 "{}")) =
                 Api.Returned (JObj [])) by reflexivity.
  split; [exact Hp|]. split; [exact Hc|].
  exact (proj1 (submit_success_flash sampleParseFloat sampleJSONParse sampleForm
                  (Api.Resolved (Api.mkResponse true 201 "{}")) None _ _ Hp Hc)).
Defined.

Lemma buildPayload_payload_witness :
  AddCustomer.buildPayload sampleParseFloat sampleForm =
    AddCustomer.Valid (AddCustomer.mkPayload "Ann" "12 Main Street"
                         (Some (AddCustomer.Finite (69 # 10))) None None (Some "Bob")) /\
  (AddCustomer.p_longitude (AddCustomer.mkPayload "Ann" "12 Main Street"
     (Some (AddCustomer.Finite (69 # 10))) None None (Some "Bob")) = None <->
   trim (AddCustomer.longitude sampleForm) = "").
Proof.
  assert (Hp : AddCustomer.buildPayload sampleParseFloat sampleForm =
                 AddCustomer.Valid (AddCustomer.mkPayload "Ann" "12 Main Street"
                   (Some (AddCustomer.Finite (69 # 10))) None None (Some "Bob")))
    by reflexivity.
  split; [exact Hp|].
  destruct (buildPayload_payload sampleParseFloat sampleForm _ Hp)
    as (_ & _ & _ & _ & _ & _ & _ & _ & _ & _ & Hlng & _).
  exact Hlng.
Defined.


(** ** The haversine distance in IEEE doubles *)

Module HaversineFacts.
Local Set Warnings "-inexact-float".
Import PrimFloat SpecFloat FloatOps FloatAxioms Haversine.
Local Open Scope float_scope.

Lemma SFopp_involutive x : SFopp (SFopp x) = x.
Proof. destruct x; simpl; rewrite ?negb_involutive; reflexivity. Qed.

Lemma round_aux_opp sx mx ex lx :
  binary_round_aux prec emax (negb sx) mx ex lx =
  SFopp (binary_round_aux prec emax sx mx ex lx).
Proof.
  unfold binary_round_aux.
  destruct (shr_fexp prec emax mx ex lx) as [mrs' e'].
  destruct (shr_fexp prec emax _ e' loc_Exact) as [mrs'' e''].
  destruct (shr_m mrs'') as [|p|p]; [reflexivity| |reflexivity].
  destruct (e'' <=? emax - prec)%Z; reflexivity.
Qed.

Lemma round_opp sx mx ex :
  binary_round prec emax (negb sx) mx ex = SFopp (binary_round prec emax sx mx ex).
Proof.
  unfold binary_round. destruct (shl_align mx ex _) as [mz ez]. apply round_aux_opp.
Qed.

Lemma normalize_opp m e :
  m <> 0%Z ->
  binary_normalize prec emax (Z.opp m) e false = SFopp (binary_normalize prec emax m e false).
Proof.
  intros Hm. destruct m as [|p|p]; [contradiction| |]; simpl.
  - exact (round_opp false p e).
  - rewrite <- (round_opp true p e). reflexivity.
Qed.

Lemma SFsub_antisym x y :
  SF64sub y x = SFopp (SF64sub x y) \/ SF64sub y x = SF64sub x y.
Proof.
  unfold SF64sub.
  destruct x as [sx|sx| |sx mx ex], y as [sy|sy| |sy my ey];
    try (destruct sx, sy; simpl; auto; fail);
    try (destruct sx; simpl; auto; fail);
    try (destruct sy; simpl; auto; fail);
    try (simpl; auto; fail).
  simpl. rewrite (Z.min_comm ey ex).
  set (ez := Z.min ex ey).
  set (A := cond_Zopp sx (Zpos (fst (shl_align mx ex ez)))).
  set (B := cond_Zopp sy (Zpos (fst (shl_align my ey ez)))).
  destruct (Z.eq_dec (A - B) 0) as [H0|H0].
  - right. replace (B - A)%Z with 0%Z by lia. rewrite H0. reflexivity.
  - left. replace (B - A)%Z with (Z.opp (A - B)) by lia. apply normalize_opp, H0.
Qed.

Lemma SFmul_opp_l x y : SF64mul (SFopp x) y = SFopp (SF64mul x y).
Proof.
  unfold SF64mul.
  destruct x as [sx|sx| |sx mx ex], y as [sy|sy| |sy my ey]; simpl;
    rewrite ?negb_xorb_l; try reflexivity.
  rewrite <- negb_xorb_l. apply round_aux_opp.
Qed.

Lemma SFmul_comm x y : SF64mul x y = SF64mul y x.
Proof.
  unfold SF64mul.
  destruct x as [sx|sx| |sx mx ex], y as [sy|sy| |sy my ey]; simpl;
    rewrite ?(xorb_comm sx sy); try reflexivity.
  rewrite Pos.mul_comm, Z.add_comm. reflexivity.
Qed.

Lemma SFdiv_opp_l x y : SF64div (SFopp x) y = SFopp (SF64div x y).
Proof.
  unfold SF64div.
  destruct x as [sx|sx| |sx mx ex], y as [sy|sy| |sy my ey]; simpl;
    rewrite ?negb_xorb_l; try reflexivity.
  destruct (SFdiv_core_binary prec emax (Zpos mx) ex (Zpos my) ey) as [[mz ez] lz].
  rewrite <- negb_xorb_l. apply round_aux_opp.
Qed.

Lemma opp_involutive x : - - x = x.
Proof. apply Prim2SF_inj. rewrite !opp_spec. apply SFopp_involutive. Qed.

Lemma mul_opp_l x y : (- x) * y = - (x * y).
Proof. apply Prim2SF_inj. rewrite mul_spec, !opp_spec, mul_spec. apply SFmul_opp_l. Qed.

Lemma mul_comm x y : x * y = y * x.
Proof. apply Prim2SF_inj. rewrite !mul_spec. apply SFmul_comm. Qed.

Lemma mul_opp_r x y : x * (- y) = - (x * y).
Proof. rewrite mul_comm, mul_opp_l, mul_comm. reflexivity. Qed.

Lemma div_opp_l x y : (- x) / y = - (x / y).
Proof. apply Prim2SF_inj. rewrite div_spec, !opp_spec, div_spec. apply SFdiv_opp_l. Qed.

Lemma sub_antisym x y : y - x = - (x - y) \/ y - x = x - y.
Proof.
  destruct (SFsub_antisym (Prim2SF x) (Prim2SF y)) as [H|H]; [left|right];
    apply Prim2SF_inj; rewrite ?opp_spec, !sub_spec; exact H.
Qed.

Lemma square_opp a : (- a) * (- a) = a * a.
Proof. rewrite mul_opp_l, mul_opp_r, opp_involutive. reflexivity. Qed.

Lemma scaled_square_opp X a : X * (- a) * (- a) = X * a * a.
Proof. rewrite !mul_opp_r, mul_opp_l, opp_involutive. reflexivity. Qed.

Section Odd.
Variables (sin : float -> float).
Hypothesis sin_odd : forall x, sin (- x) = - sin x.

Lemma half_angle_swap (x y : float) :
  sin ((((y - x) * PI) / 180) / 2) = - sin ((((x - y) * PI) / 180) / 2) \/
  sin ((((y - x) * PI) / 180) / 2) = sin ((((x - y) * PI) / 180) / 2).
Proof.
  destruct (sub_antisym x y) as [H|H]; rewrite H; [left|right; reflexivity].
  rewrite mul_opp_l, !div_opp_l. apply sin_odd.
Qed.

Lemma square_swap (X : float) (x y : float) :
  sin ((((y - x) * PI) / 180) / 2) * sin ((((y - x) * PI) / 180) / 2) =
  sin ((((x - y) * PI) / 180) / 2) * sin ((((x - y) * PI) / 180) / 2) /\
  X * sin ((((y - x) * PI) / 180) / 2) * sin ((((y - x) * PI) / 180) / 2) =
  X * sin ((((x - y) * PI) / 180) / 2) * sin ((((x - y) * PI) / 180) / 2).
Proof.
  destruct (half_angle_swap x y) as [H|H]; rewrite H; [|split; reflexivity].
  split; [apply square_opp|apply scaled_square_opp].
Qed.
End Odd.

Theorem calculateDistance_symmetric sin cos atan2
    (sin_odd : forall x, sin (- x) = - sin x) (lat1 lon1 lat2 lon2 : float) :
  calculateDistance sin cos atan2 lat1 lon1 lat2 lon2 =
  calculateDistance sin cos atan2 lat2 lon2 lat1 lon1.
Proof.
  unfold calculateDistance. cbv zeta.
  destruct (square_swap sin sin_odd 0 lat1 lat2) as [Hlat _].
  destruct (square_swap sin sin_odd (cos ((lat1 * PI) / 180) * cos ((lat2 * PI) / 180)) lon1 lon2)
    as [_ Hlon].
  rewrite Hlat, Hlon, (mul_comm (cos ((lat1 * PI) / 180))). reflexivity.
Qed.

Local Open Scope Z_scope.
Lemma digits2_pos_log2 p : Zpos (digits2_pos p) = Z.log2 (Zpos p) + 1.
Proof.
  induction p as [p IH|p IH|]; simpl digits2_pos; [| |reflexivity].
  - rewrite Pos2Z.inj_succ, IH, Pos2Z.inj_xI, Z.log2_succ_double; lia.
  - rewrite Pos2Z.inj_succ, IH, Pos2Z.inj_xO, Z.log2_double; lia.
Qed.

Lemma Zdigits2_le m k : 0 <= m -> m < 2 ^ k -> Zdigits2 m <= k.
Proof.
  intros Hm Hk. destruct m as [|p|p]; simpl; [|rewrite digits2_pos_log2|lia].
  - destruct (Z.lt_ge_cases k 0) as [Hn|Hn]; [rewrite Z.pow_neg_r in Hk; lia|lia].
  - assert (0 <= k).
    { destruct (Z.lt_ge_cases k 0) as [Hn|Hn]; [rewrite Z.pow_neg_r in Hk; lia|lia]. }
    apply Z.log2_lt_pow2 in Hk; lia.
Qed.

Lemma Zdigits2_ge p L : 0 <= L -> 2 ^ L <= Zpos p -> L + 1 <= Zdigits2 (Zpos p).
Proof.
  intros HL H. simpl. rewrite digits2_pos_log2.
  apply Z.log2_le_pow2 in H; lia.
Qed.

Lemma shr_1_m r : 0 <= shr_m r -> shr_m (shr_1 r) = Z.shiftr (shr_m r) 1.
Proof.
  intros H. rewrite <- Z.div2_spec.
  destruct r as [m rr ss]; destruct m as [|[p|p|]|p]; simpl in *; reflexivity || lia.
Qed.

Lemma iter_shr_1_m p r :
  0 <= shr_m r -> shr_m (iter_pos shr_1 p r) = Z.shiftr (shr_m r) (Zpos p).
Proof.
  revert r. induction p as [p IH|p IH|]; intros r H; simpl iter_pos.
  - assert (H1 : 0 <= shr_m (shr_1 r)) by (rewrite shr_1_m by lia; apply Z.shiftr_nonneg; lia).
    assert (H2 : 0 <= shr_m (iter_pos shr_1 p (shr_1 r)))
      by (rewrite IH by lia; apply Z.shiftr_nonneg; lia).
    rewrite IH, IH, shr_1_m, !Z.shiftr_shiftr by lia. f_equal. lia.
  - assert (H2 : 0 <= shr_m (iter_pos shr_1 p r))
      by (rewrite IH by lia; apply Z.shiftr_nonneg; lia).
    rewrite IH, IH, !Z.shiftr_shiftr by lia. f_equal. lia.
  - apply shr_1_m, H.
Qed.

Lemma shr_record_of_loc_m m l : shr_m (shr_record_of_loc m l) = m.
Proof. destruct l as [|[]]; reflexivity. Qed.

Lemma round_nearest_even_le m l : m <= round_nearest_even m l <= m + 1.
Proof. destruct l as [|[]]; simpl; try destruct (Z.even m); lia. Qed.

Lemma shr_fexp_bound K m e l :
  inBound K m e -> -1074 <= K ->
  inBound K (shr_m (fst (shr_fexp prec emax m e l))) (snd (shr_fexp prec emax m e l)).
Proof.
  intros (Hm & He & Hlt) HK.
  assert (Hd : Zdigits2 m <= K - e) by (apply Zdigits2_le; lia).
  unfold shr_fexp, shr, fexp, emin, prec, emax.
  destruct (Z.max (Zdigits2 m + e - 53) (3 - 1024 - 53) - e) as [|p|p] eqn:En;
    simpl fst; simpl snd; rewrite ?shr_record_of_loc_m; [split; lia| |split; lia].
  rewrite iter_shr_1_m by (rewrite shr_record_of_loc_m; lia).
  rewrite shr_record_of_loc_m, Z.shiftr_div_pow2 by lia.
  repeat split.
  - apply Z.div_pos; [lia|apply Z.pow_pos_nonneg; lia].
  - lia.
  - apply Z.div_lt_upper_bound; [apply Z.pow_pos_nonneg; lia|].
    rewrite <- Z.pow_add_r by lia. replace (Zpos p + (K - (e + Zpos p))) with (K - e) by lia.
    exact Hlt.
Qed.

Lemma round_aux_bound K sx mx ex lx :
  inBound K mx ex -> -1074 <= K -> K < 971 ->
  boundedSF (K + 1) (binary_round_aux prec emax sx mx ex lx).
Proof.
  intros H HK HK'. unfold binary_round_aux.
  pose proof (shr_fexp_bound K mx ex lx H HK) as H1.
  destruct (shr_fexp prec emax mx ex lx) as [r1 e1]. simpl in H1.
  set (m2 := round_nearest_even (shr_m r1) (loc_of_shr_record r1)).
  assert (H2 : inBound (K + 1) m2 e1).
  { destruct H1 as (Hm & He & Hlt).
    pose proof (round_nearest_even_le (shr_m r1) (loc_of_shr_record r1)).
    assert (2 ^ (K + 1 - e1) = 2 * 2 ^ (K - e1)) as Hp
      by (replace (K + 1 - e1) with (Z.succ (K - e1)) by lia; apply Z.pow_succ_r; lia).
    assert (0 < 2 ^ (K - e1)) by (apply Z.pow_pos_nonneg; lia).
    fold m2 in H0. clearbody m2. repeat split; lia. }
  pose proof (shr_fexp_bound (K + 1) m2 e1 loc_Exact H2 ltac:(lia)) as H3.
  destruct (shr_fexp prec emax m2 e1 loc_Exact) as [r2 e2]. simpl in H3.
  destruct H3 as (Hm & He & Hlt).
  revert Hm Hlt. destruct (shr_m r2) as [|p|p]; intros Hm Hlt; simpl; [exact I| |lia].
  replace (e2 <=? 971) with true by (symmetry; apply Z.leb_le; lia).
  repeat split; lia.
Qed.

Lemma mul_inBound Kx Ky mx ex my ey :
  inBound Kx mx ex -> inBound Ky my ey -> inBound (Kx + Ky) (mx * my) (ex + ey).
Proof.
  intros (Hmx & Hex & Hx) (Hmy & Hey & Hy). repeat split; [nia|lia|].
  replace (Kx + Ky - (ex + ey)) with ((Kx - ex) + (Ky - ey)) by lia.
  rewrite Z.pow_add_r by lia. nia.
Qed.

Lemma div_inBound Kx L mx ex my ey :
  0 <= L -> 2 ^ L <= Zpos my -> inBound Kx (Zpos mx) ex -> -1074 <= Kx - L - ey ->
  let '(q, e', _) := SFdiv_core_binary prec emax (Zpos mx) ex (Zpos my) ey in
  inBound (Kx - L - ey) q e'.
Proof.
  intros HL Hmy (Hmx & Hex & Hx) HK.
  pose proof (Zdigits2_le (Zpos mx) (Kx - ex) Hmx Hx) as Hd1.
  pose proof (Zdigits2_ge my L HL Hmy) as Hd2.
  unfold SFdiv_core_binary, fexp, emin, prec, emax.
  set (e' := Z.min _ (ex - ey)).
  assert (He' : e' <= Kx - L - ey) by (unfold e'; lia).
  assert (Hs : 0 <= ex - ey - e') by (unfold e'; lia).
  set (m' := match ex - ey - e' with Zpos _ => Z.shiftl (Zpos mx) (ex - ey - e') | Z0 => Zpos mx | Zneg _ => 0 end).
  assert (Hm' : m' = Zpos mx * 2 ^ (ex - ey - e')).
  { unfold m'. destruct (ex - ey - e') eqn:Es; [lia| |lia].
    rewrite Z.shiftl_mul_pow2 by lia. reflexivity. }
  fold m'.
  destruct (IntDef.Z.div_eucl m' (Zpos my)) as [q r] eqn:Eq.
  assert (Hq : q = m' / Zpos my) by (unfold Z.div; rewrite Eq; reflexivity).
  clearbody m'. subst q m'. repeat split.
  - apply Z.div_pos; [|lia]. apply Z.mul_nonneg_nonneg; [lia|apply Z.pow_nonneg; lia].
  - exact He'.
  - apply Z.div_lt_upper_bound; [lia|].
    assert (Hlt : Zpos mx * 2 ^ (ex - ey - e') < 2 ^ (Kx - ex) * 2 ^ (ex - ey - e')).
    { apply Z.mul_lt_mono_pos_r; [apply Z.pow_pos_nonneg; lia|exact Hx]. }
    rewrite <- Z.pow_add_r in Hlt by lia.
    replace (Kx - ex + (ex - ey - e')) with (L + (Kx - L - ey - e')) in Hlt by lia.
    rewrite Z.pow_add_r in Hlt by lia.
    assert (0 <= 2 ^ (Kx - L - ey - e')) by (apply Z.pow_nonneg; lia).
    nia.
Qed.

Lemma inBound_mono K K' m e : K <= K' -> inBound K m e -> inBound K' m e.
Proof.
  intros HK (Hm & He & Hlt). repeat split; [lia|lia|].
  eapply Z.lt_le_trans; [exact Hlt|]. apply Z.pow_le_mono_r; lia.
Qed.

Lemma boundedSF_mono K K' x : K <= K' -> boundedSF K x -> boundedSF K' x.
Proof. destruct x; simpl; auto. apply inBound_mono. Qed.

Lemma valid_mantissa x s m e :
  Prim2SF x = S754_finite s m e -> Zpos m < 2 ^ 53.
Proof.
  intros H. pose proof (Prim2SF_valid x) as V. rewrite H in V.
  unfold valid_binary, bounded, canonical_mantissa, fexp, emin in V.
  apply andb_prop in V as [V _]. apply Z.eqb_eq in V.
  assert (Hd : Zpos (digits2_pos m) <= 53) by (unfold prec, emax in V; lia).
  rewrite digits2_pos_log2 in Hd.
  apply Z.log2_lt_pow2; lia.
Qed.

Lemma abs_le_bound x y my ey :
  Prim2SF y = S754_finite false my ey -> (PrimFloat.abs x <=? y)%float = true ->
  boundedSF (ey + 53) (Prim2SF x).
Proof.
  intros Hy H. rewrite leb_spec, abs_spec, Hy in H.
  pose proof (valid_mantissa x) as V.
  destruct (Prim2SF x) as [s|s| |s m e]; simpl in H |- *; auto; try discriminate.
  assert (He : e <= ey).
  { unfold SFleb, SFcompare in H.
    destruct (Z.compare e ey) eqn:Ec; try discriminate;
      [apply Z.compare_eq_iff in Ec; rewrite Ec; apply Z.le_refl
      |apply Z.compare_lt_iff in Ec; apply Z.lt_le_incl, Ec]. }
  pose proof (V s m e eq_refl).
  repeat split; [lia|lia|]. eapply Z.lt_le_trans; [eassumption|].
  apply Z.pow_le_mono_r; lia.
Qed.

Lemma mul_bounded Kx Ky x y :
  boundedSF Kx x -> boundedSF Ky y -> -1074 <= Kx + Ky -> Kx + Ky < 971 ->
  boundedSF (Kx + Ky + 1) (SF64mul x y).
Proof.
  intros Hx Hy H1 H2. unfold SF64mul.
  destruct x as [sx|sx| |sx mx ex], y as [sy|sy| |sy my ey]; simpl in *; try contradiction; auto.
  apply round_aux_bound; [|lia|lia]. rewrite Pos2Z.inj_mul. apply mul_inBound; assumption.
Qed.

Lemma div_bounded Kx L x sy my ey :
  boundedSF Kx x -> 0 <= L -> 2 ^ L <= Zpos my -> -1074 <= Kx - L - ey -> Kx - L - ey < 971 ->
  boundedSF (Kx - L - ey + 1) (SF64div x (S754_finite sy my ey)).
Proof.
  intros Hx HL Hmy H1 H2. unfold SF64div.
  destruct x as [sx|sx| |sx mx ex]; simpl in *; try contradiction; auto.
  pose proof (div_inBound Kx L mx ex my ey HL Hmy Hx H1) as Hq.
  destruct (SFdiv_core_binary prec emax (Zpos mx) ex (Zpos my) ey) as [[q e'] l].
  apply round_aux_bound; assumption || lia.
Qed.

Lemma boundedSF_is_finite K x : boundedSF K (Prim2SF x) -> is_finite x = true.
Proof.
  intros H. unfold is_finite, is_nan, is_infinity.
  rewrite !eqb_spec, abs_spec. change (Prim2SF infinity) with (S754_infinity false).
  destruct (Prim2SF x) as [s|s| |s m e]; simpl in H |- *; try contradiction.
  - reflexivity.
  - unfold SFeqb, SFcompare. destruct s; rewrite Z.compare_refl, Pos.compare_cont_refl; reflexivity.
Qed.

Lemma sub_self K x : boundedSF K (Prim2SF x) -> (x - x)%float = 0%float.
Proof.
  intros H. apply Prim2SF_inj. rewrite sub_spec. change (Prim2SF 0) with (S754_zero false).
  destruct (Prim2SF x) as [s|s| |s m e]; simpl in H |- *; try contradiction.
  - destruct s; reflexivity.
  - rewrite Z.sub_diag. reflexivity.
Qed.

Lemma haversine_a_zero K y :
  boundedSF K (Prim2SF y) -> (0 * 0 + y * 0 * 0)%float = 0%float.
Proof.
  intros H. apply Prim2SF_inj. rewrite add_spec, !mul_spec.
  change (Prim2SF 0) with (S754_zero false).
  destruct (Prim2SF y) as [s|s| |s m e]; simpl in H |- *; try contradiction; destruct s; reflexivity.
Qed.

Lemma lat_angle_bounded lat :
  (PrimFloat.abs lat <=? 90)%float = true -> boundedSF 4 (Prim2SF ((lat * PI) / 180)%float).
Proof.
  intros H. pose proof (abs_le_bound lat 90 _ _ eq_refl H) as Blat.
  assert (BPI : boundedSF 2 (Prim2SF PI)) by (vm_compute; repeat split; discriminate).
  rewrite div_spec, mul_spec. change (Prim2SF 180) with (S754_finite false 6333186975989760 (-45)).
  apply (div_bounded 10 52); [|lia|vm_compute; discriminate|lia|lia].
  apply (mul_bounded 7 2); [exact Blat|exact BPI|lia|lia].
Qed.

Lemma cos_product_bounded c1 c2 :
  (PrimFloat.abs c1 <=? 1)%float = true -> (PrimFloat.abs c2 <=? 1)%float = true ->
  boundedSF 3 (Prim2SF (c1 * c2)%float).
Proof.
  intros H1 H2. rewrite mul_spec.
  apply (mul_bounded 1 1);
    [exact (abs_le_bound c1 1 _ _ eq_refl H1)|exact (abs_le_bound c2 1 _ _ eq_refl H2)|lia|lia].
Qed.

Theorem calculateDistance_same_point sin cos atan2
    (sin_zero : sin 0%float = 0%float) (atan2_zero : atan2 0%float 1%float = 0%float)
    (cos_bounded : forall x, is_finite x = true -> (PrimFloat.abs (cos x) <=? 1)%float = true)
    (lat lon : float)
    (Hlat : (PrimFloat.abs lat <=? 90)%float = true) (Hlon : (PrimFloat.abs lon <=? 180)%float = true) :
  calculateDistance sin cos atan2 lat lon lat lon = 0%float.
Proof.
  pose proof (abs_le_bound lat 90 _ _ eq_refl Hlat) as Blat.
  pose proof (abs_le_bound lon 180 _ _ eq_refl Hlon) as Blon.
  pose proof (cos_bounded _ (boundedSF_is_finite _ _ (lat_angle_bounded lat Hlat))) as Hc.
  unfold calculateDistance. cbv zeta.
  rewrite (sub_self _ lat Blat), (sub_self _ lon Blon).
  replace ((((0 * PI) / 180) / 2)%float) with 0%float by reflexivity.
  rewrite sin_zero, (haversine_a_zero _ _ (cos_product_bounded _ _ Hc Hc)).
  replace (sqrt 0%float) with 0%float by reflexivity.
  replace (sqrt (1 - 0)%float) with 1%float by reflexivity.
  rewrite atan2_zero. reflexivity.
Qed.
Local Open Scope float_scope.

Lemma signBit_opp x : Prim2SF x <> S754_nan -> signBit (- x) = negb (signBit x).
Proof.
  unfold signBit. rewrite opp_spec. destruct (Prim2SF x); simpl; congruence.
Qed.

Lemma oddExt_odd f : f nan = nan -> forall x, oddExt f (- x) = - oddExt f x.
Proof.
  intros Hn x. unfold oddExt.
  destruct (Prim2SF x) eqn:E.
  1-2,4: rewrite signBit_opp by congruence; destruct (signBit x); simpl;
    rewrite ?opp_involutive; reflexivity.
  assert (Hx : x = nan) by (apply Prim2SF_inj; rewrite E; reflexivity).
  subst x. replace (- nan) with nan by reflexivity. unfold signBit.
  change (Prim2SF nan) with S754_nan. simpl. rewrite Hn. reflexivity.
Qed.

Lemma sampleCos_bounded x : (PrimFloat.abs (sampleCos x) <=? 1) = true.
Proof.
  unfold sampleCos.
  destruct ((x =? (0.08 * PI) / 180) || (x =? ((-0.08) * PI) / 180)); vm_compute; reflexivity.
Qed.

Lemma antipodal_nan (sin cos : float -> float) (atan2 : float -> float -> float) :
  sin halfLatArg = sinHalfLat -> sin halfLonArg = -1 ->
  cos ((0.08 * PI) / 180) = cosLat -> cos (((-0.08) * PI) / 180) = cosLat ->
  (forall y, atan2 y nan = nan) ->
  calculateDistance sin cos atan2 0.08 71.08 (-0.08) (-108.92) = nan.
Proof.
  intros H1 H2 H3 H4 H5. unfold calculateDistance. cbv zeta.
  unfold halfLatArg, halfLonArg in *. rewrite H1, H2, H3, H4.
  match goal with |- context [atan2 ?u ?v] =>
    replace v with nan by (unfold sinHalfLat, cosLat; vm_compute; reflexivity) end.
  rewrite H5. vm_compute. reflexivity.
Qed.



End HaversineFacts.
